(** * knitfab-api-types: tags, annotations, change sets and their equality

    A shallow embedding of the value library of the Knitfab WebAPI types
    (packages [internal/utils/cmp], [tags], [plans] and [runs]) together with
    the properties its specification states about parsing, validation,
    comparison and canonical serialization.

    Go strings are byte sequences: they are embedded as [string], whose
    characters are the 8-bit [ascii] values.  A slice is embedded as a [list]
    (the nil slice and the empty slice are both [[]]; no function below tells
    them apart), a nilable pointer as an [option].  A method with a pointer
    receiver that assigns to its receiver is embedded as a function from the
    receiver's old value to its new value paired with the returned error. *)

From Stdlib Require Import ZArith List Permutation Sorted Ascii String Bool Lia FinFun.
From Stdlib Require Import OrderedTypeEx.
From stdpp Require Import base gmap list strings.

Local Open Scope string_scope.
Local Open Scope list_scope.

(** * Part I: the embedding *)

(** ** Package [internal/utils/cmp] *)

Module cmp.

Section Unordered.
Context {T : Type}.
(** The method [Equal] of the element type: [x.Equal(y)]. *)
Variable Equal : T -> T -> bool.

(** The inner loop [for i, y := range b]: the first [y] with [x.Equal(y)]
    is removed from [b] ([b = append(b[:i], b[i+1:]...)]) and the outer loop
    continues; [None] when the inner loop ends without a match. *)
Fixpoint remove_first_match (x : T) (b : list T) : option (list T) :=
  match b with
  | [] => None
  | y :: b' =>
      if Equal x y then Some b'
      else match remove_first_match x b' with
           | Some r => Some (y :: r)
           | None => None
           end
  end.

(** The outer loop [A: for _, x := range a] followed by
    [return len(b) == 0]. *)
Fixpoint consume (a b : list T) : bool :=
  match a with
  | [] => Nat.eqb (length b) 0
  | x :: a' =>
      match remove_first_match x b with
      | Some b' => consume a' b'
      | None => false
      end
  end.

(** [SliceEqualUnordered]: the length test, then the loops on a copy of
    [b] (lists are values, so the copy is implicit). *)
Definition SliceEqualUnordered (a b : list T) : bool :=
  if negb (Nat.eqb (length a) (length b)) then false else consume a b.

(** [SliceEqual]: position-wise comparison. *)
Fixpoint SliceEqual_loop (a b : list T) : bool :=
  match a, b with
  | [], _ => true
  | x :: a', y :: b' => if negb (Equal x y) then false else SliceEqual_loop a' b'
  | _ :: _, [] => false
  end.

Definition SliceEqual (a b : list T) : bool :=
  if negb (Nat.eqb (length a) (length b)) then false else SliceEqual_loop a b.

(** *** What the specification calls a bijection

    [f] maps the positions of [a] injectively into the positions of [b]
    (the two have the same length, so [f] is a bijection), and every
    element of [a] is [Equal] to the element of [b] it is sent to. *)
Definition matched_by (f : nat -> nat) (a b : list T) : Prop :=
  length a = length b /\
  bFun (length a) f /\
  bInjective (length a) f /\
  forall i x, a !! i = Some x ->
              exists y, b !! f i = Some y /\ Equal x y = true.

Definition bijection (a b : list T) : Prop := exists f, matched_by f a b.

(** The same notion through a rearrangement of [b]. *)
Definition matching (a b : list T) : Prop :=
  exists b', Permutation b b' /\ Forall2 (fun x y => Equal x y = true) a b'.

(** [Equal] is an equivalence relation. *)
Definition equivalence : Prop :=
  (forall x, Equal x x = true) /\
  (forall x y, Equal x y = true -> Equal y x = true) /\
  (forall x y z, Equal x y = true -> Equal y z = true -> Equal x z = true).

End Unordered.

(** [SliceEqEqUnordered] is the same algorithm with the built-in [==] of a
    comparable type. *)
Definition SliceEqEqUnordered {T : Type} `{EqDecision T} (a b : list T) : bool :=
  SliceEqualUnordered (fun x y => bool_decide (x = y)) a b.

(** Modelled from the spec: [SliceEqEq] is called by [plans.Summary.Equal]
    but its definition is not among the sources.  Its test [TestSliceEqEq]
    fixes it as [SliceEqual] with the built-in [==]: position-wise, false on
    different lengths and on the same elements in another order. *)
Definition SliceEqEq {T : Type} `{EqDecision T} (a b : list T) : bool :=
  SliceEqual (fun x y => bool_decide (x = y)) a b.

(** The element type of the tests of the package ([cmp_test.go]):
    [type Int int] with [func (t Int) Equal(other Int) bool { return t == other }]. *)
Definition Int_Equal (t other : Z) : bool := Z.eqb t other.

(** [Equal] is symmetric and transitive (it need not be reflexive). *)
Definition partial_equivalence {T : Type} (Equal : T -> T -> bool) : Prop :=
  (forall x y, Equal x y = true -> Equal y x = true) /\
  (forall x y z, Equal x y = true -> Equal y z = true -> Equal x z = true).

Section Maps.
Context {K : Type} `{Countable K} {V : Type}.
Variable pred : V -> V -> bool.

(** The loop [for k, va := range a] of [MapEqualWith] over the entries of [a]
    in the order [l] in which the runtime yields them, on the clone of [b],
    followed by [return len(b) == 0]. *)
Fixpoint MapEqualWith_loop (l : list (K * V)) (b : gmap K V) : bool :=
  match l with
  | [] => Nat.eqb (size b) 0
  | (k, va) :: l' =>
      match b !! k with
      | Some vb =>
          if negb (pred va vb) then false
          else MapEqualWith_loop l' (delete k b)
      | None => false
      end
  end.

(** [MapEqualWith(a, b, pred)] when the entries of [a] are ranged over in
    the order [l]. *)
Definition MapEqualWith_in (l : list (K * V)) (a b : gmap K V) : bool :=
  if negb (Nat.eqb (size a) (size b)) then false else MapEqualWith_loop l b.

(** [MapEqualWith(a, b, pred)], ranging over [a] in the order of
    [map_to_list]. *)
Definition MapEqualWith (a b : gmap K V) : bool :=
  MapEqualWith_in (map_to_list a) a b.

(** The entries of [a] match entries of [b] under [pred], and [b] has no
    other key. *)
Definition same_keys_related (a b : gmap K V) : Prop :=
  forall k,
    match a !! k, b !! k with
    | Some va, Some vb => pred va vb = true
    | None, None => True
    | _, _ => False
    end.

End Maps.

End cmp.

(** ** The functions of Go's package [strings] that the library calls *)

Module gostrings.

(** The bytes of a string. *)
Abbreviation chars := list_ascii_of_string.

(** [strings.Cut(s, sep)] for a separator of one byte (the library cuts at
    [":"] and at ["="]): the text before the first [sep], the text after it,
    and whether [sep] occurs; [s], the empty string and [false] when it
    does not. *)
Fixpoint Cut (s : string) (sep : ascii) : string * string * bool :=
  match s with
  | EmptyString => (EmptyString, EmptyString, false)
  | String c r =>
      if Ascii.eqb c sep then (EmptyString, r, true)
      else let '(before, after, found) := Cut r sep in
           (String c before, after, found)
  end.

(** [strings.HasPrefix(s, prefix)]. *)
Definition HasPrefix (s pre : string) : bool := String.prefix pre s.


(** The UTF-8 encodings of the runes for which [unicode.IsSpace] holds:
    tab, line feed, vertical tab, form feed, carriage return, space, U+0085,
    U+00A0, U+1680, U+2000 to U+200A, U+2028, U+2029, U+202F, U+205F and
    U+3000. *)
Definition space_runes : list (list ascii) :=
  map (map ascii_of_nat)
    [ [9]; [10]; [11]; [12]; [13]; [32]; [194; 133]; [194; 160];
      [225; 154; 128];
      [226; 128; 128]; [226; 128; 129]; [226; 128; 130]; [226; 128; 131];
      [226; 128; 132]; [226; 128; 133]; [226; 128; 134]; [226; 128; 135];
      [226; 128; 136]; [226; 128; 137]; [226; 128; 138];
      [226; 128; 168]; [226; 128; 169]; [226; 128; 175]; [226; 129; 159];
      [227; 128; 128] ].

(** [l] without its prefix [p], when it starts with [p]. *)
Fixpoint strip_prefix (p l : list ascii) : option (list ascii) :=
  match p, l with
  | [], _ => Some l
  | c :: p', d :: l' => if Ascii.eqb c d then strip_prefix p' l' else None
  | _ :: _, [] => None
  end.

(** [l] without the first of the byte sequences [rs] it starts with. *)
Fixpoint strip_any (rs : list (list ascii)) (l : list ascii) : option (list ascii) :=
  match rs with
  | [] => None
  | p :: rs' =>
      match strip_prefix p l with
      | Some r => Some r
      | None => strip_any rs' l
      end
  end.

(** Strip leading sequences of [rs] as long as there is one; every step
    shortens [l], so [length l] steps are enough. *)
Fixpoint trim_runs (rs : list (list ascii)) (fuel : nat) (l : list ascii) : list ascii :=
  match fuel with
  | O => l
  | S n =>
      match strip_any rs l with
      | Some r => trim_runs rs n r
      | None => l
      end
  end.

Definition trim_left (l : list ascii) : list ascii :=
  trim_runs space_runes (length l) l.

(** The same from the end: a rune is decoded backwards, which for the
    sequences of [space_runes] is a match of the sequence read in reverse. *)
Definition trim_right (l : list ascii) : list ascii :=
  reverse (trim_runs (map reverse space_runes) (length l) (reverse l)).

(** [strings.TrimSpace(s)]: [s] without leading and trailing white space,
    "as defined by Unicode". *)
Definition TrimSpace (s : string) : string :=
  string_of_list_ascii (trim_right (trim_left (chars s))).

End gostrings.

(** ** Errors

    One constructor for each error the library builds, by its message. *)
Inductive error : Type :=
| (** ["tag parse error: %s :no key"] *)
  ErrTagNoKey (s : string)
| (** ["tag parse error: %s is not timestamp"] *)
  ErrTagNotTimestamp (s : string)
| (** ["tag parse error: "knit#transient" should be one of ..."] *)
  ErrTagTransient
| (** ["tag key "knit#..." is reserved for system tags"] *)
  ErrTagReserved
| (** ["tag key "knit#..." is reserved for system tags. not removable."] *)
  ErrTagReservedNotRemovable
| (** ["failed to parse Tag"] *)
  ErrTagFailedToParse
| (** ["tag is nil"] *)
  ErrTagNil
| (** ["field "..." is missing"] *)
  ErrFieldMissing (field : string)
| (** ["field "..."'s value is missing"] *)
  ErrFieldValueMissing (field : string)
| (** ["field "..."'s value is invalid"] *)
  ErrFieldValueInvalid (field : string)
| (** ["annotation format error (should be key=value): %s"] *)
  ErrAnnotationFormat (s : string)
| (** [*json.UnmarshalTypeError], raised by [encoding/json] itself *)
  ErrUnmarshalType.

(** The taxonomy of the specification: which errors report a reserved key
    (a policy error), and which a malformed or ill-valued element. *)
Definition is_policy_error (e : error) : bool :=
  match e with
  | ErrTagReserved | ErrTagReservedNotRemovable => true
  | _ => false
  end.

(** ** JSON values and the part of [encoding/json] the library relies on *)

Module json.

(** A parsed JSON text.  The members of an object are kept in document
    order, with their duplicates: the decoder visits them in that order.
    A value decoded into [interface{}] is the same tree ([JNull] is [nil],
    [JString] a [string], [JObject] a [map[string]interface{}]). *)
#[warnings="-register-all"]
Inductive value : Type :=
| JNull
| JBool (b : bool)
| JNumber (literal : string)
| JString (s : string)
| JArray (elements : list value)
| JObject (members : list (string * value)).

(** [json.Unmarshal(data, s)] with [s] a pointer to a fresh [string]: a JSON
    string is stored, [null] leaves the empty string, anything else is an
    [UnmarshalTypeError] ([None]). *)
Definition unmarshal_string (data : value) : option string :=
  match data with
  | JString s => Some s
  | JNull => Some EmptyString
  | _ => None
  end.

(** [json.Unmarshal(data, &dat)] with [dat] a nil [map[string]interface{}]:
    an object becomes a map, a later duplicate of a name replacing the
    earlier one; [null] leaves the nil map ([Some None]); anything else is an
    error ([None]). *)
Definition unmarshal_map (data : value) : option (option (gmap string value)) :=
  match data with
  | JObject members =>
      Some (Some (foldl (fun m kv => <[kv.1 := kv.2]> m) ∅ members))
  | JNull => Some None
  | _ => None
  end.

(** [foldName]: the decoder matches a member name with a struct field when
    the two are equal after case folding.  ASCII letters fold to upper case;
    the only other runes that fold to an ASCII letter are U+017F (to [S],
    bytes 197 191) and U+212A (to [K], bytes 226 132 170).  Every other byte
    above 127 is kept: it belongs to a rune that folds to a rune outside
    ASCII, so the name matches no field of the structs below. *)
Fixpoint foldName_bytes (l : list nat) : list nat :=
  match l with
  | [] => []
  | 197 :: 191 :: r => 83 :: foldName_bytes r
  | 226 :: 132 :: 170 :: r => 75 :: foldName_bytes r
  | c :: r =>
      (if (97 <=? c)%nat && (c <=? 122)%nat then c - 32 else c) :: foldName_bytes r
  end.

Definition foldName (s : string) : string :=
  string_of_list_ascii
    (map ascii_of_nat (foldName_bytes (map nat_of_ascii (list_ascii_of_string s)))).

(** *** Decoding into slices and structs

    While it decodes, [encoding/json] keeps the first [UnmarshalTypeError]
    it meets and goes on ([d.saveError]); an error returned by an
    [UnmarshalJSON] method stops it at once.  A decoder is a function of the
    saved error that either stops with an error or returns a value and the
    saved error. *)
Inductive result (A : Type) : Type :=
| Ok (a : A)
| Err (e : error).
Arguments Ok {A} a.
Arguments Err {A} e.

Definition decoder (A : Type) : Type := option error -> result (A * option error).

Definition ret {A : Type} (a : A) : decoder A := fun saved => Ok (a, saved).

Definition bind {A B : Type} (d : decoder A) (k : A -> decoder B) : decoder B :=
  fun saved =>
    match d saved with
    | Ok (a, saved') => k a saved'
    | Err e => Err e
    end.

Definition fail {A : Type} (e : error) : decoder A := fun _ => Err e.

Definition saveError (e : error) : decoder unit :=
  fun saved =>
    match saved with
    | Some _ => Ok (tt, saved)
    | None => Ok (tt, Some e)
    end.

Notation "'do' x <- d ; k" := (bind d (fun x => k))
  (at level 10, x name, d at level 99, k at level 200).

(** [json.Unmarshal]: the error that stopped the decoder, else the saved
    error, else the decoded value. *)
Definition Unmarshal {A : Type} (d : decoder A) : result A :=
  match d None with
  | Err e => Err e
  | Ok (_, Some e) => Err e
  | Ok (a, None) => Ok a
  end.

(** An element of type [string]: [null] leaves the element as it is, which
    is the empty string in a slice that is decoded for the first time. *)
Definition string_element (v : value) : decoder string :=
  match v with
  | JString s => ret s
  | JNull => ret EmptyString
  | _ => do _u <- saveError ErrUnmarshalType; ret EmptyString
  end.

(** An element whose type has an [UnmarshalJSON] method [f]: the method is
    called on the element (here the zero value [zero]) for every JSON value,
    [null] included, and its error stops the decoder. *)
Definition unmarshaler_element {A : Type} (f : A -> value -> A * option error)
    (zero : A) (v : value) : decoder A :=
  match f zero v with
  | (a, None) => ret a
  | (_, Some e) => fail e
  end.

Fixpoint unmarshal_elements {A : Type} (elem : value -> decoder A)
    (l : list value) : decoder (list A) :=
  match l with
  | [] => ret []
  | v :: l' =>
      do a <- elem v;
      do r <- unmarshal_elements elem l';
      ret (a :: r)
  end.

(** A field of slice type: an array is decoded element by element, [null]
    sets the nil slice, any other value is a type error and the field keeps
    its value [old]. *)
Definition unmarshal_slice {A : Type} (elem : value -> decoder A)
    (old : list A) (v : value) : decoder (list A) :=
  match v with
  | JArray l => unmarshal_elements elem l
  | JNull => ret []
  | _ => do _u <- saveError ErrUnmarshalType; ret old
  end.

(** The field for a member name: the field whose name is the member's, else
    the first whose folded name is the member's folded name. *)
Definition find_field {F : Type} (fields : list (string * F)) (name : string) : option F :=
  match List.find (fun f => String.eqb f.1 name) fields with
  | Some f => Some f.2
  | None =>
      match List.find (fun f => String.eqb (foldName f.1) (foldName name)) fields with
      | Some f => Some f.2
      | None => None
      end
  end.

(** The members of an object, in document order, decoded into the struct
    [s]; a member that matches no field is skipped.  A later member of the
    same name decodes into the same field again. *)
Fixpoint unmarshal_members {S : Type} (fields : list (string * (S -> value -> decoder S)))
    (members : list (string * value)) (s : S) : decoder S :=
  match members with
  | [] => ret s
  | (name, v) :: members' =>
      match find_field fields name with
      | None => unmarshal_members fields members' s
      | Some field =>
          do s' <- field s v;
          unmarshal_members fields members' s'
      end
  end.

(** A struct without an [UnmarshalJSON] method: [null] changes nothing, a
    value that is not an object is a type error. *)
Definition unmarshal_struct {S : Type} (fields : list (string * (S -> value -> decoder S)))
    (s : S) (data : value) : decoder S :=
  match data with
  | JObject members => unmarshal_members fields members s
  | JNull => ret s
  | _ => do _u <- saveError ErrUnmarshalType; ret s
  end.

(** The request bodies of section 6 of the specification:
    [{"add": [...], "remove": [...], "remove_key": [...]}]. *)
Definition change_body (add remove remove_key : list value) : value :=
  JObject [("add", JArray add); ("remove", JArray remove);
           ("remove_key", JArray remove_key)].

(** The error of the first element of [l] on which the method [f] fails. *)
Fixpoint first_failure {A : Type} (f : value -> A * option error) (l : list value)
  : option error :=
  match l with
  | [] => None
  | v :: l' =>
      match snd (f v) with
      | Some e => Some e
      | None => first_failure f l'
      end
  end.

(** Every error that the decoder [d] stops with or saves satisfies [E], when
    the error saved before does. *)
Definition errors_in {A : Type} (E : error -> Prop) (d : decoder A) : Prop :=
  forall saved,
    (forall e, saved = Some e -> E e) ->
    match d saved with
    | Ok (_, saved') => forall e, saved' = Some e -> E e
    | Err e => E e
    end.

End json.

(** ** Package [misc/rfctime], as the library uses it

    The package is not among the sources.  The library needs a type of
    timestamps, the parser [ParseRFC3339DateTime] (here [None] for a non-nil
    error), the method [Equiv] that [tags] calls and the method [Equal] that
    [runs] calls. *)
Class rfctime : Type := {
  RFC3339 : Type;
  ParseRFC3339DateTime : string -> option RFC3339;
  Equiv : RFC3339 -> RFC3339 -> bool;
  RFC3339_Equal : RFC3339 -> RFC3339 -> bool
}.

(** ** Package [tags] *)

Module tags.
Import gostrings json.

Definition SystemTagPrefix : string := "knit#".
Definition KeyKnitId : string := SystemTagPrefix ++ "id".
Definition KeyKnitTimestamp : string := SystemTagPrefix ++ "timestamp".
Definition KeyKnitTransient : string := SystemTagPrefix ++ "transient".
Definition ValueKnitTransientFailed : string := "failed".
Definition ValueKnitTransientProcessing : string := "processing".
Definition ValueKnitTransientPurged : string := "purged".

Record Tag : Type := { Key : string; Value : string }.

(** [type UserTag Tag]: the same fields under another name; the conversions
    [UserTag(t)] and [Tag(u)] are the identity. *)
Definition UserTag : Type := Tag.

(** The zero value, [Tag{}] (and what [&Tag{}] points to). *)
Definition Tag_zero : Tag := {| Key := EmptyString; Value := EmptyString |}.

Definition Tag_String (t : Tag) : string := Key t ++ ":" ++ Value t.

Section WithTime.
Context `{rfctime}.

Definition Tag_Equal (a b : Tag) : bool :=
  if negb (String.eqb (Key a) (Key b)) then false
  else if negb (String.eqb (Key a) KeyKnitTimestamp) then String.eqb (Value a) (Value b)
  else
    match ParseRFC3339DateTime (Value a), ParseRFC3339DateTime (Value b) with
    | Some vA, Some vB => Equiv vA vB
    | _, _ => false
    end.

(** [func (t *Tag) Parse(s string) error]: the receiver after the call and
    the error. *)
Definition Tag_Parse (t : Tag) (s : string) : Tag * option error :=
  let '(k, v, ok) := Cut s ":" in
  if negb ok then (t, Some (ErrTagNoKey s))
  else
    let k := TrimSpace k in
    let v := TrimSpace v in
    let checked : option error :=
      if String.eqb k KeyKnitTimestamp then
        match ParseRFC3339DateTime v with
        | Some _ => None
        | None => Some (ErrTagNotTimestamp s)
        end
      else if String.eqb k KeyKnitTransient then
        if String.eqb v ValueKnitTransientProcessing
           || String.eqb v ValueKnitTransientFailed
           || String.eqb v ValueKnitTransientPurged
        then None
        else Some ErrTagTransient
      else None in
    match checked with
    | Some e => (t, Some e)
    | None => ({| Key := k; Value := v |}, None)
    end.

(** [func (t Tag) AsUserTag(ut *UserTag) bool]. *)
Definition Tag_AsUserTag (t : Tag) (ut : UserTag) : UserTag * bool :=
  if HasPrefix (Key t) SystemTagPrefix then (ut, false) else (t, true).

(** [func (t *Tag) unarshal(dat map[string]interface{}) error]; [None] is
    the nil map.  [t.Key] is assigned as soon as the key has been checked,
    before the value is looked at. *)
Definition Tag_unarshal (t : Tag) (dat : option (gmap string value)) : Tag * option error :=
  match dat with
  | None => (t, Some ErrTagNil)
  | Some dat =>
      match dat !! "key" with
      | None => (t, Some (ErrFieldMissing "key"))
      | Some JNull => (t, Some (ErrFieldValueMissing "key"))
      | Some (JString key) =>
          let t := {| Key := key; Value := Value t |} in
          match dat !! "value" with
          | None => (t, Some (ErrFieldMissing "value"))
          | Some JNull => (t, Some (ErrFieldValueMissing "value"))
          | Some (JString value) => ({| Key := Key t; Value := value |}, None)
          | Some _ => (t, Some (ErrFieldValueInvalid "value"))
          end
      | Some _ => (t, Some (ErrFieldValueInvalid "key"))
      end
  end.

(** [func (t *Tag) UnmarshalJSON(data []byte) error], on the JSON value
    that [data] spells. *)
Definition Tag_UnmarshalJSON (t : Tag) (data : value) : Tag * option error :=
  match unmarshal_string data with
  | Some s => Tag_Parse t s
  | None =>
      match unmarshal_map data with
      | None => (t, Some ErrTagFailedToParse)
      | Some dat => Tag_unarshal t dat
      end
  end.

Definition Tag_marshal (t : Tag) : string := Tag_String t.

(** [func (ut *UserTag) Parse(s string) error]. *)
Definition UserTag_Parse (ut : UserTag) (s : string) : UserTag * option error :=
  let '(t, err) := Tag_Parse Tag_zero s in
  match err with
  | Some e => (ut, Some e)
  | None =>
      if HasPrefix (Key t) SystemTagPrefix then (ut, Some ErrTagReserved)
      else (t, None)
  end.

(** [func (ut *UserTag) UnmarshalJSON(data []byte) error]. *)
Definition UserTag_UnmarshalJSON (ut : UserTag) (data : value) : UserTag * option error :=
  let '(t, err) := Tag_UnmarshalJSON Tag_zero data in
  match err with
  | Some e => (ut, Some e)
  | None =>
      if HasPrefix (Key t) SystemTagPrefix then (ut, Some ErrTagReserved)
      else (t, None)
  end.

Definition UserTag_Equal (u o : UserTag) : bool := Tag_Equal u o.

(** [Change]: the request body that changes the tags of a Data. *)
Record Change : Type := {
  AddTags : list UserTag;
  RemoveTags : list UserTag;
  RemoveKey : list string
}.

Definition Change_zero : Change :=
  {| AddTags := []; RemoveTags := []; RemoveKey := [] |}.

(** The local [type raw struct] of [Change.UnmarshalJSON] has the fields of
    [Change] and no methods, so [encoding/json] decodes it field by field:
    ["add"] and ["remove"] through [UserTag.UnmarshalJSON], ["remove_key"]
    as strings. *)
Definition raw_add (r : Change) (v : value) : decoder Change :=
  do l <- unmarshal_slice (unmarshaler_element UserTag_UnmarshalJSON Tag_zero) (AddTags r) v;
  ret {| AddTags := l; RemoveTags := RemoveTags r; RemoveKey := RemoveKey r |}.

Definition raw_remove (r : Change) (v : value) : decoder Change :=
  do l <- unmarshal_slice (unmarshaler_element UserTag_UnmarshalJSON Tag_zero) (RemoveTags r) v;
  ret {| AddTags := AddTags r; RemoveTags := l; RemoveKey := RemoveKey r |}.

Definition raw_remove_key (r : Change) (v : value) : decoder Change :=
  do l <- unmarshal_slice string_element (RemoveKey r) v;
  ret {| AddTags := AddTags r; RemoveTags := RemoveTags r; RemoveKey := l |}.

Definition raw_fields : list (string * (Change -> value -> decoder Change)) :=
  [ ("add", raw_add); ("remove", raw_remove); ("remove_key", raw_remove_key) ].

(** The loop [for _, rk := range r.RemoveKey]: the error it returns, if
    any. *)
Fixpoint check_RemoveKey (l : list string) : option error :=
  match l with
  | [] => None
  | rk :: l' =>
      if HasPrefix rk SystemTagPrefix then Some ErrTagReservedNotRemovable
      else check_RemoveKey l'
  end.

(** [func (c *Change) UnmarshalJSON(data []byte) error]. *)
Definition Change_UnmarshalJSON (c : Change) (data : value) : Change * option error :=
  match Unmarshal (unmarshal_struct raw_fields Change_zero data) with
  | Err e => (c, Some e)
  | Ok r =>
      match check_RemoveKey (RemoveKey r) with
      | Some e => (c, Some e)
      | None =>
          ({| AddTags := AddTags r; RemoveTags := RemoveTags r; RemoveKey := RemoveKey r |},
           None)
      end
  end.

Definition Change_Equal (c o : Change) : bool :=
  cmp.SliceEqualUnordered UserTag_Equal (AddTags c) (AddTags o)
  && cmp.SliceEqualUnordered UserTag_Equal (RemoveTags c) (RemoveTags o)
  && cmp.SliceEqEqUnordered (RemoveKey c) (RemoveKey o).

End WithTime.

(** *** Notions used in the statements about tags *)

(** [k] and [v] are the parts of [s] before and after its first [":"]. *)
Definition first_colon_split (s k v : string) : Prop :=
  s = (k ++ ":" ++ v)%string /\ ~ In ":"%char (chars k).

(** The values [Tag.Parse] accepts for the key ["knit#transient"]. *)
Definition transient_values : list string := ["processing"; "failed"; "purged"].

(** A tag in canonical form: what [Tag.Parse] can produce.  The key holds no
    [":"], key and value have no white space around them, and the value of a
    timestamp key or of a transient key is a valid one. *)
Definition canonical `{rfctime} (t : Tag) : Prop :=
  ~ In ":"%char (chars (Key t)) /\
  TrimSpace (Key t) = Key t /\
  TrimSpace (Value t) = Value t /\
  (Key t = "knit#timestamp" -> ParseRFC3339DateTime (Value t) <> None) /\
  (Key t = "knit#transient" -> In (Value t) transient_values).

(** The tag that an element of ["add"] or ["remove"] spells, and whether the
    element spells one. *)
Definition element_tag `{rfctime} (e : value) : Tag := fst (Tag_UnmarshalJSON Tag_zero e).


(** A key that carries the reserved prefix. *)
Definition reserved (key : string) : bool := HasPrefix key SystemTagPrefix.

(** No tag of the two tag lists of a [Change] carries the reserved prefix. *)
Definition user_keys_only (r : Change) : Prop :=
  Forall (fun t => reserved (Key t) = false) (AddTags r) /\
  Forall (fun t => reserved (Key t) = false) (RemoveTags r).

End tags.

(** ** [slices.SortFunc]

    The algorithm of [slices.SortFunc] is not specified and not stable; its
    result is a rearrangement of the slice in which no element compares
    greater than a later one.  It is embedded as an insertion sort.  (For a
    comparison that answers 0 on identical elements only, as the one of
    [Annotations.marshal], there is one such rearrangement:
    [sorted_rearrangement_unique] below.) *)
Module slices.

Section Sort.
Context {E : Type}.
Variable compare : E -> E -> Z.



End Sort.
End slices.

(** ** Package [plans] *)

Module plans.
Import gostrings json.

Record Annotation : Type := { Key : string; Value : string }.

Definition Annotation_zero : Annotation :=
  {| Key := EmptyString; Value := EmptyString |}.

Definition Annotation_String (an : Annotation) : string :=
  Key an ++ "=" ++ Value an.

Definition Annotation_Equal (an o : Annotation) : bool :=
  String.eqb (Key an) (Key o) && String.eqb (Value an) (Value o).


(** [func (an *Annotation) parse(s string) error]. *)
Definition Annotation_parse (an : Annotation) (s : string) : Annotation * option error :=
  let '(k, v, ok) := Cut s "=" in
  if negb ok then (an, Some (ErrAnnotationFormat s))
  else ({| Key := TrimSpace k; Value := TrimSpace v |}, None).

(** [func (an *Annotation) UnmarshalJSON(b []byte) error]. *)
Definition Annotation_UnmarshalJSON (an : Annotation) (b : value) : Annotation * option error :=
  match unmarshal_string b with
  | None => (an, Some ErrUnmarshalType)
  | Some s => Annotation_parse an s
  end.

Definition Annotations : Type := list Annotation.

Definition Annotations_Equal (ans o : Annotations) : bool :=
  cmp.SliceEqualUnordered Annotation_Equal ans o.




(** [AnnotationChange]: a plain struct, decoded by [encoding/json] field by
    field; ["add"] and ["remove"] through [Annotation.UnmarshalJSON]. *)
Record AnnotationChange : Type := {
  Add : Annotations;
  Remove : Annotations;
  RemoveKey : list string
}.

Definition AnnotationChange_zero : AnnotationChange :=
  {| Add := []; Remove := []; RemoveKey := [] |}.

Definition AnnotationChange_add (r : AnnotationChange) (v : value) : decoder AnnotationChange :=
  do l <- unmarshal_slice (unmarshaler_element Annotation_UnmarshalJSON Annotation_zero) (Add r) v;
  ret {| Add := l; Remove := Remove r; RemoveKey := RemoveKey r |}.

Definition AnnotationChange_remove (r : AnnotationChange) (v : value) : decoder AnnotationChange :=
  do l <- unmarshal_slice (unmarshaler_element Annotation_UnmarshalJSON Annotation_zero) (Remove r) v;
  ret {| Add := Add r; Remove := l; RemoveKey := RemoveKey r |}.

Definition AnnotationChange_remove_key (r : AnnotationChange) (v : value) : decoder AnnotationChange :=
  do l <- unmarshal_slice string_element (RemoveKey r) v;
  ret {| Add := Add r; Remove := Remove r; RemoveKey := l |}.

Definition AnnotationChange_fields
  : list (string * (AnnotationChange -> value -> decoder AnnotationChange)) :=
  [ ("add", AnnotationChange_add); ("remove", AnnotationChange_remove);
    ("remove_key", AnnotationChange_remove_key) ].

(** [json.Unmarshal(data, &ac)]: the decoded value, or the error (what a
    failed decoding leaves in [ac] is not part of the embedding). *)
Definition AnnotationChange_Unmarshal (ac : AnnotationChange) (data : value)
  : result AnnotationChange :=
  Unmarshal (unmarshal_struct AnnotationChange_fields ac data).

Record Image : Type := { Repository : string; Tag : string }.

(** [func (i *Image) Equal(o *Image) bool], on nilable pointers. *)
Definition Image_Equal (i o : option Image) : bool :=
  match i, o with
  | Some i, Some o =>
      String.eqb (Repository i) (Repository o) && String.eqb (Tag i) (Tag o)
  | None, None => true
  | _, _ => false
  end.

Record Summary : Type := {
  PlanId : string;
  Summary_Image : option Image;
  Entrypoint : list string;
  Args : list string;
  Name : string;
  Summary_Annotations : Annotations
}.

Definition Summary_Equal (s o : Summary) : bool :=
  String.eqb (PlanId s) (PlanId o)
  && Image_Equal (Summary_Image s) (Summary_Image o)
  && cmp.SliceEqEq (Entrypoint s) (Entrypoint o)
  && cmp.SliceEqEq (Args s) (Args o)
  && String.eqb (Name s) (Name o)
  && Annotations_Equal (Summary_Annotations s) (Summary_Annotations o).

Record Mountpoint : Type := { Path : string; Tags : list tags.Tag }.

Record LogPoint : Type := { LogPoint_Tags : list tags.Tag }.

(** [json.Unmarshal(data, &got)] with [got] of type [Annotations], a slice
    type without an [UnmarshalJSON] method of its own: every element goes
    through [Annotation.UnmarshalJSON]. *)
Definition Annotations_Unmarshal (old : Annotations) (data : value) : result Annotations :=
  Unmarshal
    (unmarshal_slice (unmarshaler_element Annotation_UnmarshalJSON Annotation_zero) old data).

Record OnSpecLabel : Type := { OnSpecLabel_Key : string; OnSpecLabel_Value : string }.

Definition OnSpecLabel_String (l : OnSpecLabel) : string :=
  OnSpecLabel_Key l ++ "=" ++ OnSpecLabel_Value l.

Definition OnSpecLabel_Equal (l o : OnSpecLabel) : bool :=
  String.eqb (OnSpecLabel_Key l) (OnSpecLabel_Key o)
  && String.eqb (OnSpecLabel_Value l) (OnSpecLabel_Value o).

(** The one error of [OnSpecLabel.Parse]:
    ["label format error (should be key=value): %s"]. *)
Inductive label_error : Type :=
| ErrLabelFormat (s : string).

(** [func (l *OnSpecLabel) Parse(s string) error]: the two sides of the
    first ["="], as they are. *)
Definition OnSpecLabel_Parse (l : OnSpecLabel) (s : string)
  : OnSpecLabel * option label_error :=
  let '(k, v, ok) := Cut s "=" in
  if negb ok then (l, Some (ErrLabelFormat s))
  else ({| OnSpecLabel_Key := k; OnSpecLabel_Value := v |}, None).

Record OnNode : Type := {
  May : list OnSpecLabel;
  Prefer : list OnSpecLabel;
  Must : list OnSpecLabel
}.

Definition OnNode_Equal (o oo : OnNode) : bool :=
  cmp.SliceEqualUnordered OnSpecLabel_Equal (May o) (May oo)
  && cmp.SliceEqualUnordered OnSpecLabel_Equal (Prefer o) (Prefer oo)
  && cmp.SliceEqualUnordered OnSpecLabel_Equal (Must o) (Must oo).

Section WithTime.
Context `{rfctime}.

Definition Mountpoint_Equal (m o : Mountpoint) : bool :=
  String.eqb (Path m) (Path o)
  && cmp.SliceEqualUnordered tags.Tag_Equal (Tags m) (Tags o).

Definition LogPoint_Equal (lp o : LogPoint) : bool :=
  cmp.SliceEqualUnordered tags.Tag_Equal (LogPoint_Tags lp) (LogPoint_Tags o).

(** [Upstream]: an upstream plan with the mountpoint or the log it feeds
    from. *)
Record Upstream : Type := {
  Upstream_Plan : Summary;
  Upstream_Mountpoint : option Mountpoint;
  Upstream_Log : option LogPoint
}.

(** [func (d Upstream) Equal(o Upstream) bool].  The calls of [Equal] on
    [d.Mountpoint] and [d.Log] read through these pointers and through
    [o.Mountpoint] and [o.Log]: on a nil pointer the program panics, which is
    the result [None] here. *)
Definition Upstream_Equal (d o : Upstream) : option bool :=
  if negb (Bool.eqb (bool_decide (Upstream_Mountpoint d = None))
                    (bool_decide (Upstream_Mountpoint o = None)))
  then Some false
  else if negb (Bool.eqb (bool_decide (Upstream_Log d = None))
                         (bool_decide (Upstream_Log o = None)))
  then Some false
  else
    mountpointMatch ←
      (if bool_decide (Upstream_Mountpoint d = None)
          && bool_decide (Upstream_Mountpoint o = None)
       then Some true
       else m ← Upstream_Mountpoint d; om ← Upstream_Mountpoint o;
            Some (Mountpoint_Equal m om));
    logMatch ←
      (if bool_decide (Upstream_Log d = None) && bool_decide (Upstream_Log o = None)
       then Some true
       else l ← Upstream_Log d; ol ← Upstream_Log o; Some (LogPoint_Equal l ol));
    Some (Summary_Equal (Upstream_Plan d) (Upstream_Plan o) && mountpointMatch && logMatch).

End WithTime.

(** *** Notions used in the statements about annotations *)

(** The annotation that a string spells. *)
Definition annotation_of (s : string) : Annotation :=
  fst (Annotation_parse Annotation_zero s).

(** A string without ["="] spells no annotation. *)
Definition malformed (s : string) : bool := negb (snd (Cut s "=")).



(** The comparison of two nilable pointers that the library writes out for
    its optional fields: both nil, or both set and [Equal]. *)
Definition nil_or_Equal {A : Type} (Equal : A -> A -> bool) (a b : option A) : bool :=
  match a, b with
  | None, None => true
  | Some x, Some y => Equal x y
  | _, _ => false
  end.

End plans.

(** ** Package [runs] *)

Module runs.

Record Exit : Type := { Code : Z; Message : string }.

(** [Code] is a [uint8]: two codes are compared as numbers. *)
Definition Exit_Equal (e o : Exit) : bool :=
  (Code e =? Code o)%Z && String.eqb (Message e) (Message o).

Section WithTime.
Context `{rfctime}.

Record Summary : Type := {
  RunId : string;
  Status : string;
  UpdatedAt : RFC3339;
  Summary_Exit : option Exit;
  Plan : plans.Summary
}.

Definition Summary_Equal (s o : Summary) : bool :=
  let exitEq :=
    match Summary_Exit s, Summary_Exit o with
    | None, None => true
    | Some e, Some oe => Exit_Equal e oe
    | _, _ => false
    end in
  String.eqb (RunId s) (RunId o)
  && exitEq
  && plans.Summary_Equal (Plan s) (Plan o)
  && String.eqb (Status s) (Status o)
  && RFC3339_Equal (UpdatedAt s) (UpdatedAt o).

(** [Assignment] embeds [plans.Mountpoint]. *)
Record Assignment : Type := {
  Assignment_Mountpoint : plans.Mountpoint;
  Assignment_KnitId : string
}.

Definition Assignment_Equal (a o : Assignment) : bool :=
  plans.Mountpoint_Equal (Assignment_Mountpoint a) (Assignment_Mountpoint o)
  && String.eqb (Assignment_KnitId a) (Assignment_KnitId o).

(** [LogSummary] embeds [plans.LogPoint]. *)
Record LogSummary : Type := {
  LogSummary_LogPoint : plans.LogPoint;
  LogSummary_KnitId : string
}.

Definition LogSummary_Equal (l o : LogSummary) : bool :=
  plans.LogPoint_Equal (LogSummary_LogPoint l) (LogSummary_LogPoint o)
  && String.eqb (LogSummary_KnitId l) (LogSummary_KnitId o).

(** [Detail] embeds [Summary]: [r.RunId] is [r.Summary.RunId], and so on. *)
Record Detail : Type := {
  Detail_Summary : Summary;
  Inputs : list Assignment;
  Outputs : list Assignment;
  Log : option LogSummary
}.

Definition Detail_Equal (r o : Detail) : bool :=
  let logEq :=
    match Log r, Log o with
    | None, None => true
    | Some l, Some ol => LogSummary_Equal l ol
    | _, _ => false
    end in
  String.eqb (RunId (Detail_Summary r)) (RunId (Detail_Summary o))
  && plans.Summary_Equal (Plan (Detail_Summary r)) (Plan (Detail_Summary o))
  && String.eqb (Status (Detail_Summary r)) (Status (Detail_Summary o))
  && RFC3339_Equal (UpdatedAt (Detail_Summary r)) (UpdatedAt (Detail_Summary o))
  && cmp.SliceEqualUnordered Assignment_Equal (Inputs r) (Inputs o)
  && cmp.SliceEqualUnordered Assignment_Equal (Outputs r) (Outputs o)
  && logEq.

(** *** Notions used in the statements about runs *)

(** [d] with its [Exit] replaced. *)
Definition with_Exit (d : Detail) (e : option Exit) : Detail :=
  {| Detail_Summary :=
       {| RunId := RunId (Detail_Summary d);
          Status := Status (Detail_Summary d);
          UpdatedAt := UpdatedAt (Detail_Summary d);
          Summary_Exit := e;
          Plan := Plan (Detail_Summary d) |};
     Inputs := Inputs d;
     Outputs := Outputs d;
     Log := Log d |}.


End WithTime.
End runs.

(** ** Package [data] *)

Module data.

Section WithTime.
Context `{rfctime}.

(** [CreatedFrom]: the run that created a Data, with the mountpoint or the
    log it came out of. *)
Record CreatedFrom : Type := {
  CreatedFrom_Mountpoint : option plans.Mountpoint;
  CreatedFrom_Log : option plans.LogPoint;
  CreatedFrom_Run : runs.Summary
}.

Definition CreatedFrom_Equal (c o : CreatedFrom) : bool :=
  let mountpointEq :=
    match CreatedFrom_Mountpoint c, CreatedFrom_Mountpoint o with
    | None, None => true
    | Some m, Some om => plans.Mountpoint_Equal m om
    | _, _ => false
    end in
  let logEq :=
    match CreatedFrom_Log c, CreatedFrom_Log o with
    | None, None => true
    | Some l, Some ol => plans.LogPoint_Equal l ol
    | _, _ => false
    end in
  runs.Summary_Equal (CreatedFrom_Run c) (CreatedFrom_Run o) && mountpointEq && logEq.

Record AssignedTo : Type := {
  AssignedTo_Mountpoint : plans.Mountpoint;
  AssignedTo_Run : runs.Summary
}.

Definition AssignedTo_Equal (a o : AssignedTo) : bool :=
  runs.Summary_Equal (AssignedTo_Run a) (AssignedTo_Run o)
  && plans.Mountpoint_Equal (AssignedTo_Mountpoint a) (AssignedTo_Mountpoint o).

(** [NominatedBy] embeds [plans.Mountpoint]. *)
Record NominatedBy : Type := {
  NominatedBy_Mountpoint : plans.Mountpoint;
  NominatedBy_Plan : plans.Summary
}.

Definition NominatedBy_Equal (n o : NominatedBy) : bool :=
  plans.Summary_Equal (NominatedBy_Plan n) (NominatedBy_Plan o)
  && plans.Mountpoint_Equal (NominatedBy_Mountpoint n) (NominatedBy_Mountpoint o).

Record Detail : Type := {
  KnitId : string;
  Tags : list tags.Tag;
  Upstream : CreatedFrom;
  Downstreams : list AssignedTo;
  Nomination : list NominatedBy
}.

Definition Detail_Equal (d o : Detail) : bool :=
  String.eqb (KnitId d) (KnitId o)
  && CreatedFrom_Equal (Upstream d) (Upstream o)
  && cmp.SliceEqualUnordered tags.Tag_Equal (Tags d) (Tags o)
  && cmp.SliceEqualUnordered AssignedTo_Equal (Downstreams d) (Downstreams o)
  && cmp.SliceEqualUnordered NominatedBy_Equal (Nomination d) (Nomination o).

End WithTime.
End data.

(** ** A model of [misc/rfctime]

    Modelled from the spec: package [misc/rfctime] is missing from the
    sources.  After section 4.2 of the specification a timestamp is a string
    of the RFC 3339 profile, [YYYY-MM-DDThh:mm:ss], an optional fraction of a
    second and a zone that is [Z] or [+hh:mm] or [-hh:mm]; two timestamps are
    equivalent when they denote the same instant.  A parsed timestamp is kept
    as that instant, in nanoseconds since 1970-01-01T00:00:00Z.  The theorems
    of part II hold for every implementation of [rfctime]; this one serves
    the examples. *)
Module rfctime_model.

Definition digit (c : ascii) : option Z :=
  let n := nat_of_ascii c in
  if (48 <=? n)%nat && (n <=? 57)%nat then Some (Z.of_nat (n - 48)) else None.

(** A number of exactly [k] digits at the head of [l]. *)
Fixpoint number (k : nat) (acc : Z) (l : list ascii) : option (Z * list ascii) :=
  match k with
  | O => Some (acc, l)
  | S k' =>
      match l with
      | c :: r =>
          match digit c with
          | Some d => number k' (10 * acc + d)%Z r
          | None => None
          end
      | [] => None
      end
  end.

(** The digits of a fraction, as nanoseconds: [unit] is the weight of the
    next digit; digits beyond the ninth are dropped. *)
Fixpoint fraction (unit acc : Z) (l : list ascii) : Z * list ascii :=
  match l with
  | c :: r =>
      match digit c with
      | Some d => fraction (unit / 10)%Z (acc + d * unit)%Z r
      | None => (acc, l)
      end
  | [] => (acc, l)
  end.

Definition expect (c : ascii) (l : list ascii) : option (list ascii) :=
  match l with
  | d :: r => if Ascii.eqb c d then Some r else None
  | [] => None
  end.

Definition is_leap (y : Z) : bool :=
  ((y mod 4 =? 0) && (negb (y mod 100 =? 0) || (y mod 400 =? 0)))%Z.

Definition days_in_month (y m : Z) : Z :=
  if (m =? 2)%Z then (if is_leap y then 29 else 28)%Z
  else if ((m =? 4) || (m =? 6) || (m =? 9) || (m =? 11))%Z then 30%Z
  else 31%Z.

(** Days from 1970-01-01 to the civil date [y]-[m]-[d]. *)
Definition days_from_civil (y m d : Z) : Z :=
  let y' := (if m <=? 2 then y - 1 else y)%Z in
  let era := (y' / 400)%Z in
  let yoe := (y' - era * 400)%Z in
  let doy := ((153 * (if m >? 2 then m - 3 else m + 9) + 2) / 5 + d - 1)%Z in
  let doe := (yoe * 365 + yoe / 4 - yoe / 100 + doy)%Z in
  (era * 146097 + doe - 719468)%Z.

(** The zone: the offset from UTC in seconds, and nothing after it. *)
Definition zone (l : list ascii) : option Z :=
  match l with
  | [] => None
  | c :: r =>
      if Ascii.eqb c "Z" then (match r with [] => Some 0%Z | _ => None end)
      else
        let sign := if Ascii.eqb c "+" then Some 1%Z
                    else if Ascii.eqb c "-" then Some (-1)%Z else None in
        match sign with
        | None => None
        | Some sg =>
            '(hh, r) ← number 2 0 r;
            r ← expect ":" r;
            '(mm, r) ← number 2 0 r;
            match r with
            | [] => if ((hh <? 24) && (mm <? 60))%Z
                    then Some (sg * (hh * 3600 + mm * 60))%Z else None
            | _ => None
            end
        end
  end.

Definition parse (s : string) : option Z :=
  '(y, r) ← number 4 0 (list_ascii_of_string s);
  r ← expect "-" r;
  '(m, r) ← number 2 0 r;
  r ← expect "-" r;
  '(d, r) ← number 2 0 r;
  r ← expect "T" r;
  '(hh, r) ← number 2 0 r;
  r ← expect ":" r;
  '(mi, r) ← number 2 0 r;
  r ← expect ":" r;
  '(ss, r) ← number 2 0 r;
  '(ns, r) ← match expect "." r with
             | Some r' =>
                 match fraction 100000000 0 r' with
                 | (ns, r'') => if Nat.eqb (length r'') (length r') then None else Some (ns, r'')
                 end
             | None => Some (0%Z, r)
             end;
  off ← zone r;
  if ((1 <=? m) && (m <=? 12) && (1 <=? d) && (d <=? days_in_month y m)
      && (hh <? 24) && (mi <? 60) && (ss <? 60))%Z
  then Some (((days_from_civil y m d * 86400 + hh * 3600 + mi * 60 + ss - off)
              * 1000000000 + ns)%Z)
  else None.

#[export] Instance model : rfctime := {|
  RFC3339 := Z;
  ParseRFC3339DateTime := parse;
  Equiv := Z.eqb;
  RFC3339_Equal := Z.eqb
|}.

End rfctime_model.

(** * Part II: properties *)

(** ** The multiset equality engine *)

Module cmp_facts.
Import cmp.

Section Facts.
Context {T : Type}.
Variable Equal : T -> T -> bool.

(** The inner loop removes exactly one element, one that [x] equals. *)
Lemma remove_first_match_Some x b r :
  remove_first_match Equal x b = Some r ->
  exists y, Equal x y = true /\ Permutation b (y :: r).
Proof.
  revert r. induction b as [|z b IH]; intros r; simpl; [discriminate|].
  destruct (Equal x z) eqn:Hxz.
  - intros [= <-]. exists z. split; [assumption|reflexivity].
  - destruct (remove_first_match Equal x b) as [r'|]; [|discriminate].
    intros [= <-]. destruct (IH r' eq_refl) as (y & Hy & Hp).
    exists y. split; [assumption|].
    rewrite Hp. apply perm_swap.
Qed.

(** The element removed is the first one that [x] equals. *)
Lemma remove_first_match_split x b r :
  remove_first_match Equal x b = Some r ->
  exists l1 y l2, b = l1 ++ y :: l2 /\ r = l1 ++ l2 /\ Equal x y = true /\
                  Forall (fun z => Equal x z = false) l1.
Proof.
  revert r. induction b as [|z b IH]; intros r; simpl; [discriminate|].
  destruct (Equal x z) eqn:Hxz.
  - intros [= <-]. exists [], z, b. repeat split; auto.
  - destruct (remove_first_match Equal x b) as [r'|]; [|discriminate].
    intros [= <-]. destruct (IH r' eq_refl) as (l1 & y & l2 & -> & -> & Hy & Hl1).
    exists (z :: l1), y, l2. repeat split; auto.
Qed.

(** The inner loop finds a match whenever there is one. *)
Lemma remove_first_match_None x b :
  remove_first_match Equal x b = None <-> Forall (fun z => Equal x z = false) b.
Proof.
  induction b as [|z b IH]; simpl.
  - split; [constructor|reflexivity].
  - destruct (Equal x z) eqn:Hxz.
    + split; [discriminate|]. intros H. inversion H; congruence.
    + destruct (remove_first_match Equal x b) as [r'|].
      * split; [discriminate|]. intros H. inversion H as [|? ? _ Hb]; subst.
        apply IH in Hb. discriminate.
      * split; [|reflexivity]. intros _. constructor; [assumption|].
        apply IH. reflexivity.
Qed.

Lemma matching_length a b : matching Equal a b -> length a = length b.
Proof.
  intros (b' & Hp & Hf). rewrite (Permutation_length Hp).
  now apply Forall2_length in Hf.
Qed.

Lemma matching_perm_r a b b2 :
  Permutation b b2 -> matching Equal a b -> matching Equal a b2.
Proof.
  intros Hp (b' & Hp' & Hf). exists b'. split; [|assumption].
  now rewrite <- Hp.
Qed.

Lemma matching_perm_l a a2 b :
  Permutation a a2 -> matching Equal a b -> matching Equal a2 b.
Proof.
  intros Hp (b' & Hp' & Hf).
  destruct (Permutation_Forall2 Hp Hf) as (b2 & Hb & Hfb).
  exists b2. split; [|assumption]. now rewrite Hp'.
Qed.

(** Soundness of the loops needs nothing of [Equal]. *)
Lemma consume_sound a : forall b, consume Equal a b = true -> matching Equal a b.
Proof.
  induction a as [|x a IH]; intros b; simpl.
  - destruct b; [|discriminate]. intros _. exists []. split; constructor.
  - destruct (remove_first_match Equal x b) as [r|] eqn:Hr; [|discriminate].
    intros Hc. destruct (remove_first_match_Some _ _ _ Hr) as (y & Hy & Hp).
    destruct (IH _ Hc) as (r' & Hp' & Hf).
    exists (y :: r'). split.
    + rewrite Hp. now constructor.
    + now constructor.
Qed.

(** A bijection between positions is a rearrangement of [b] that lines up
    with [a], and conversely. *)
Lemma bijection_matching a b : bijection Equal a b <-> matching Equal a b.
Proof.
  split.
  - intros (f & Hlen & Hf & Hinj & Hm).
    destruct b as [|d b0] eqn:Eb.
    { destruct a; [|discriminate]. exists []. split; constructor. }
    rewrite <- Eb in *. clear Eb b0.
    set (n := length a) in *.
    exists ((fun i => nth (f i) b d) <$> seq 0 n). split.
    + apply (Permutation_nth b _ d). cbn zeta. split.
      * rewrite length_fmap, length_seq. congruence.
      * exists f. rewrite <- Hlen. repeat split; try assumption.
        intros x Hx. rewrite nth_lookup, list_lookup_fmap, lookup_seq_lt by assumption.
        reflexivity.
    + apply Forall2_same_length_lookup_2.
      * now rewrite length_fmap, length_seq.
      * intros i x y Hx Hy.
        rewrite list_lookup_fmap, lookup_seq_lt in Hy by (now apply lookup_lt_Some in Hx).
        injection Hy as <-. destruct (Hm i x Hx) as (y & Hy & Hxy).
        now rewrite (nth_lookup_Some _ _ d y Hy).
  - intros (b' & Hp & Hf).
    assert (Hlen : length a = length b).
    { apply matching_length. exists b'. split; assumption. }
    destruct b as [|d b0] eqn:Eb.
    { destruct a; [|discriminate]. exists (fun i => i).
      repeat split; try (intros ?; simpl; lia); try (intros ? ? ? ?; lia).
      intros i x Hx. destruct i; discriminate. }
    rewrite <- Eb in *. clear Eb b0.
    apply (Permutation_nth b b' d) in Hp. cbn zeta in Hp.
    destruct Hp as (Hlen' & f & Hfun & Hinj & Hnth).
    exists f. unfold matched_by. rewrite Hlen. repeat split; try assumption.
    intros i x Hx.
    destruct (Forall2_lookup_l _ _ _ _ _ Hf Hx) as (y & Hy & Hxy).
    exists y. split; [|assumption].
    assert (Hi : i < length b) by (rewrite <- Hlen; now apply lookup_lt_Some in Hx).
    destruct (nth_lookup_or_length b (f i) d) as [Hl|Hge].
    + rewrite Hl. f_equal. rewrite <- Hnth by assumption.
      now apply nth_lookup_Some.
    + specialize (Hfun i Hi). lia.
Qed.

Section Equivalence.
Hypothesis Equal_equiv : equivalence Equal.

(** An element of [b] may be replaced by an equivalent one. *)
Lemma matching_replace a z y l :
  Equal z y = true -> matching Equal a (z :: l) -> matching Equal a (y :: l).
Proof.
  destruct Equal_equiv as (_ & _ & Equal_trans).
  intros Hzy (b' & Hp & Hf).
  destruct (Permutation_cons_inv_l _ _ _ Hp) as (k1 & k2 & -> & Hl).
  apply Forall2_app_inv_r in Hf as (a1 & a2 & Hf1 & Hf2 & ->).
  inversion Hf2 as [|x' ? a2' ? Hx' Hf2']; subst.
  exists (k1 ++ y :: k2). split.
  - now apply Permutation_cons_app.
  - apply Forall2_app; [assumption|]. constructor; [|assumption].
    now apply Equal_trans with z.
Qed.

(** Completeness: removing the first match never loses a matching. *)
Lemma consume_complete a : forall b, matching Equal a b -> consume Equal a b = true.
Proof.
  destruct Equal_equiv as (_ & Equal_sym & Equal_trans).
  induction a as [|x a IH]; intros b (b' & Hp & Hf); simpl.
  - inversion Hf; subst. apply Permutation_sym, Permutation_nil in Hp.
    now subst.
  - inversion Hf as [|? y ? b3 Hxy Hf']; subst.
    destruct (remove_first_match Equal x b) as [r|] eqn:Hr.
    + apply IH.
      destruct (remove_first_match_Some _ _ _ Hr) as (z & Hz & Hpz).
      assert (Hzy : Equal z y = true).
      { apply Equal_trans with x; [now apply Equal_sym|assumption]. }
      assert (Hp2 : Permutation (z :: r) (y :: b3)).
      { now rewrite <- Hpz. }
      destruct (Permutation_cons_inv_l _ _ _ Hp2) as (k1 & k2 & Hk & Hr').
      destruct k1 as [|y' k1]; simpl in Hk; injection Hk as Hk1 Hk2; subst.
      * exists k2. split; assumption.
      * apply matching_perm_r with (y' :: k1 ++ k2); [now symmetry|].
        apply matching_replace with z; [assumption|].
        exists (k1 ++ z :: k2). split; [|assumption].
        apply Permutation_middle.
    + apply remove_first_match_None in Hr.
      assert (Hin : In y b).
      { apply (Permutation_in y (Permutation_sym Hp)). now left. }
      rewrite Forall_forall in Hr. specialize (Hr y).
      rewrite Hr in Hxy; [discriminate|]. now apply list_elem_of_In.
Qed.

Lemma SliceEqualUnordered_matching a b :
  SliceEqualUnordered Equal a b = true <-> matching Equal a b.
Proof.
  unfold SliceEqualUnordered. split.
  - destruct (Nat.eqb (length a) (length b)); simpl; [|discriminate].
    apply consume_sound.
  - intros Hm. rewrite (matching_length _ _ Hm), Nat.eqb_refl. simpl.
    now apply consume_complete.
Qed.

Lemma matching_refl a : matching Equal a a.
Proof.
  destruct Equal_equiv as (Equal_refl & _).
  exists a. split; [reflexivity|].
  induction a; constructor; auto.
Qed.

Lemma matching_sym a b : matching Equal a b -> matching Equal b a.
Proof.
  destruct Equal_equiv as (_ & Equal_sym & _).
  intros (b' & Hp & Hf).
  assert (Hf' : Forall2 (fun x y => Equal x y = true) b' a).
  { clear Hp. induction Hf; constructor; auto. }
  destruct (Permutation_Forall2 (Permutation_sym Hp) Hf') as (a' & Ha & Hfa).
  exists a'. split; assumption.
Qed.

End Equivalence.
End Facts.

(** Two booleans with the same truth are equal. *)
Lemma bool_eq_iff (x y : bool) : (x = true <-> y = true) -> x = y.
Proof. destruct x, y; intuition congruence. Qed.

(** C2. When [Equal] is an equivalence relation, [SliceEqualUnordered a b]
    is true exactly when there is a bijection from the positions of [a] to
    the positions of [b] that sends every element to one it is [Equal] to;
    hence [SliceEqualUnordered] is reflexive, symmetric, and keeps its value
    when either argument is permuted. *)
Theorem SliceEqualUnordered_bijection {T : Type} (Equal : T -> T -> bool) :
  equivalence Equal ->
  (forall a b, SliceEqualUnordered Equal a b = true <-> bijection Equal a b) /\
  (forall a, SliceEqualUnordered Equal a a = true) /\
  (forall a b, SliceEqualUnordered Equal a b = SliceEqualUnordered Equal b a) /\
  (forall a a' b b', Permutation a a' -> Permutation b b' ->
     SliceEqualUnordered Equal a b = SliceEqualUnordered Equal a' b').
Proof.
  intros He. repeat split.
  - intros Hs. apply bijection_matching.
    now apply (SliceEqualUnordered_matching Equal He).
  - intros Hb. apply (SliceEqualUnordered_matching Equal He).
    now apply bijection_matching.
  - intros a. apply (SliceEqualUnordered_matching Equal He).
    now apply matching_refl.
  - intros a b. apply bool_eq_iff.
    rewrite !(SliceEqualUnordered_matching Equal He).
    split; apply matching_sym; assumption.
  - intros a a' b b' Ha Hb. apply bool_eq_iff.
    rewrite !(SliceEqualUnordered_matching Equal He). split; intros Hm.
    + apply matching_perm_l with a; [assumption|].
      now apply matching_perm_r with b.
    + apply matching_perm_l with a'; [now symmetry|].
      apply matching_perm_r with b'; [now symmetry|assumption].
Qed.

End cmp_facts.

(** ** Cutting and trimming strings *)

Module gostrings_facts.
Import gostrings.

Lemma chars_app (s1 s2 : string) : chars (s1 ++ s2)%string = (chars s1 ++ chars s2)%list.
Proof. induction s1 as [|c s1 IH]; simpl; [reflexivity|]. now rewrite IH. Qed.

(** [Cut] finds the first separator: the text before it has none. *)
Lemma Cut_found s sep k v :
  Cut s sep = (k, v, true) -> s = (k ++ String sep v)%string /\ ~ In sep (chars k).
Proof.
  revert k. induction s as [|c s IH]; intros k; simpl; [discriminate|].
  destruct (Ascii.eqb c sep) eqn:Hc.
  - apply Ascii.eqb_eq in Hc as ->. intros [= <- <-]. simpl. auto.
  - destruct (Cut s sep) as [[k' v'] ok'].
    intros [= <- <- ->]. destruct (IH k' eq_refl) as [-> Hk].
    split; [reflexivity|]. simpl. intros [->|Hin]; [|contradiction].
    now rewrite Ascii.eqb_refl in Hc.
Qed.

Lemma Cut_not_found s sep k v :
  Cut s sep = (k, v, false) -> k = s /\ v = EmptyString /\ ~ In sep (chars s).
Proof.
  revert k. induction s as [|c s IH]; intros k; simpl.
  - intros [= <- <-]. auto.
  - destruct (Ascii.eqb c sep) eqn:Hc; [discriminate|].
    destruct (Cut s sep) as [[k' v'] ok'].
    intros [= <- <- ->]. destruct (IH k' eq_refl) as (-> & -> & Hs).
    split; [reflexivity|]. split; [reflexivity|].
    simpl. intros [->|Hin]; [|contradiction].
    now rewrite Ascii.eqb_refl in Hc.
Qed.

(** A text without separator, the separator, and any text: [Cut] gives the
    two texts back. *)
Lemma Cut_app k sep v :
  ~ In sep (chars k) -> Cut (k ++ String sep v)%string sep = (k, v, true).
Proof.
  induction k as [|c k IH]; simpl; intros Hk.
  - now rewrite Ascii.eqb_refl.
  - destruct (Ascii.eqb c sep) eqn:Hc.
    + apply Ascii.eqb_eq in Hc. tauto.
    + rewrite IH by tauto. reflexivity.
Qed.

(** [Cut] reports a separator exactly when there is one. *)
Lemma Cut_found_iff s sep :
  snd (Cut s sep) = true <-> In sep (chars s).
Proof.
  destruct (Cut s sep) as [[k v] [|]] eqn:Hcut; simpl.
  - apply Cut_found in Hcut as [-> _]. rewrite chars_app. simpl.
    split; [intros _|reflexivity]. apply in_or_app. right. now left.
  - apply Cut_not_found in Hcut as (_ & _ & Hs). split; [discriminate|tauto].
Qed.

(** *** Trimming *)

Lemma strip_prefix_Some p l r : strip_prefix p l = Some r -> l = (p ++ r)%list.
Proof.
  revert l. induction p as [|c p IH]; intros [|d l]; simpl; try discriminate.
  - now intros [= ->].
  - now intros [= ->].
  - destruct (Ascii.eqb c d) eqn:Hc; [|discriminate].
    apply Ascii.eqb_eq in Hc as ->. intros Hs. now rewrite (IH _ Hs).
Qed.

Lemma strip_prefix_app p r : strip_prefix p (p ++ r) = Some r.
Proof.
  induction p as [|c p IH]; simpl; [now destruct r|].
  now rewrite Ascii.eqb_refl.
Qed.

Lemma strip_any_Some rs l r :
  strip_any rs l = Some r -> exists p, In p rs /\ l = (p ++ r)%list.
Proof.
  induction rs as [|p rs IH]; simpl; [discriminate|].
  destruct (strip_prefix p l) as [r'|] eqn:Hp.
  - intros [= ->]. exists p. split; [now left|]. now apply strip_prefix_Some.
  - intros Hs. destruct (IH Hs) as (q & Hq & ->). exists q. split; [now right|reflexivity].
Qed.

Lemma strip_any_None rs l p r :
  strip_any rs l = None -> In p rs -> l <> (p ++ r)%list.
Proof.
  induction rs as [|q rs IH]; simpl; [tauto|].
  destruct (strip_prefix q l) as [r'|] eqn:Hq; [discriminate|].
  intros Hs [->|Hin] ->.
  - rewrite strip_prefix_app in Hq. discriminate.
  - now apply (IH Hs Hin).
Qed.

(** What is trimmed off is a prefix: the result is a suffix of the input. *)
Lemma trim_runs_suffix rs n l : exists p, l = (p ++ trim_runs rs n l)%list.
Proof.
  revert l. induction n as [|n IH]; intros l; simpl.
  - now exists [].
  - destruct (strip_any rs l) as [r|] eqn:Hs; [|now exists []].
    destruct (strip_any_Some _ _ _ Hs) as (p & _ & ->).
    destruct (IH r) as (q & Hq). exists (p ++ q)%list.
    rewrite <- app_assoc. now rewrite <- Hq.
Qed.

(** With enough steps nothing is left to strip, when no sequence is empty. *)
Lemma trim_runs_done rs n l :
  Forall (fun p => p <> []) rs -> length l <= n ->
  strip_any rs (trim_runs rs n l) = None.
Proof.
  intros Hrs. revert l. induction n as [|n IH]; intros l Hn; simpl.
  - destruct l; [|simpl in Hn; lia].
    destruct (strip_any rs []) as [r|] eqn:Hs; [|reflexivity].
    destruct (strip_any_Some _ _ _ Hs) as (p & Hp & Hl).
    rewrite List.Forall_forall in Hrs. apply Hrs in Hp.
    destruct p; [congruence|discriminate].
  - destruct (strip_any rs l) as [r|] eqn:Hs; [|assumption].
    apply IH. destruct (strip_any_Some _ _ _ Hs) as (p & Hp & ->).
    rewrite List.Forall_forall in Hrs. apply Hrs in Hp.
    destruct p; [congruence|]. rewrite length_app in Hn. simpl in Hn. lia.
Qed.

Lemma trim_runs_fixed rs n l : strip_any rs l = None -> trim_runs rs n l = l.
Proof. intros Hs. destruct n; simpl; [reflexivity|]. now rewrite Hs. Qed.

Lemma space_runes_nonempty : Forall (fun p => p <> []) space_runes.
Proof. unfold space_runes. repeat (constructor; [discriminate|]). constructor. Qed.

Lemma space_runes_rev_nonempty : Forall (fun p => p <> []) (map reverse space_runes).
Proof. unfold space_runes. repeat (constructor; [discriminate|]). constructor. Qed.

Lemma trim_left_suffix l : exists p, l = (p ++ trim_left l)%list.
Proof. apply trim_runs_suffix. Qed.

Lemma trim_right_prefix l : exists q, l = (trim_right l ++ q)%list.
Proof.
  unfold trim_right.
  destruct (trim_runs_suffix (map reverse space_runes) (length l) (reverse l)) as (p & Hp).
  exists (reverse p). apply (f_equal reverse) in Hp.
  now rewrite reverse_involutive, reverse_app in Hp.
Qed.

Lemma trim_left_done l : strip_any space_runes (trim_left l) = None.
Proof. apply trim_runs_done; [apply space_runes_nonempty|reflexivity]. Qed.

Lemma trim_left_fixed l : strip_any space_runes l = None -> trim_left l = l.
Proof. apply trim_runs_fixed. Qed.

Lemma trim_right_done l :
  strip_any (map reverse space_runes) (reverse (trim_right l)) = None.
Proof.
  unfold trim_right. rewrite reverse_involutive.
  apply trim_runs_done; [apply space_runes_rev_nonempty|].
  now rewrite length_reverse.
Qed.

Lemma trim_right_fixed l :
  strip_any (map reverse space_runes) (reverse l) = None -> trim_right l = l.
Proof.
  intros Hs. unfold trim_right. rewrite trim_runs_fixed by assumption.
  apply reverse_involutive.
Qed.

(** Trimming the end does not uncover white space at the start. *)
Lemma trim_right_keeps_start l :
  strip_any space_runes l = None -> strip_any space_runes (trim_right l) = None.
Proof.
  intros Hl. destruct (strip_any space_runes (trim_right l)) as [r|] eqn:Hs; [|reflexivity].
  destruct (strip_any_Some _ _ _ Hs) as (p & Hp & Hr).
  destruct (trim_right_prefix l) as (q & Hq).
  exfalso. apply (strip_any_None _ _ p (r ++ q)%list Hl Hp).
  rewrite Hq at 1. rewrite Hr. now rewrite <- app_assoc.
Qed.

(** [TrimSpace] keeps bytes of its argument only. *)
Lemma TrimSpace_chars s c : In c (chars (TrimSpace s)) -> In c (chars s).
Proof.
  unfold TrimSpace. rewrite list_ascii_of_string_of_list_ascii.
  destruct (trim_left_suffix (chars s)) as (p & Hp).
  destruct (trim_right_prefix (trim_left (chars s))) as (q & Hq).
  intros Hin. rewrite Hp, Hq. apply in_or_app. right. apply in_or_app. now left.
Qed.

(** A trimmed string has nothing left to trim. *)
Lemma TrimSpace_idempotent s : TrimSpace (TrimSpace s) = TrimSpace s.
Proof.
  unfold TrimSpace. rewrite list_ascii_of_string_of_list_ascii. f_equal.
  set (l := trim_left (chars s)).
  assert (Hl : strip_any space_runes l = None) by apply trim_left_done.
  rewrite trim_left_fixed by now apply trim_right_keeps_start.
  apply trim_right_fixed, trim_right_done.
Qed.

End gostrings_facts.

(** ** Tags *)

Module tags_facts.
Import gostrings json tags gostrings_facts.

Lemma KeyKnitTimestamp_eq : KeyKnitTimestamp = "knit#timestamp".
Proof. reflexivity. Qed.

Lemma KeyKnitTransient_eq : KeyKnitTransient = "knit#transient".
Proof. reflexivity. Qed.

Lemma first_colon_split_Cut s k v :
  first_colon_split s k v <-> Cut s ":" = (k, v, true).
Proof.
  split.
  - intros [-> Hk]. now apply (Cut_app k ":" v).
  - intros Hcut. apply Cut_found in Hcut as [-> Hk]. split; [reflexivity|assumption].
Qed.

Lemma transient_values_ok v :
  String.eqb v ValueKnitTransientProcessing
  || String.eqb v ValueKnitTransientFailed
  || String.eqb v ValueKnitTransientPurged = true
  <-> In v transient_values.
Proof.
  unfold transient_values. simpl. rewrite !orb_true_iff, !String.eqb_eq.
  unfold ValueKnitTransientProcessing, ValueKnitTransientFailed, ValueKnitTransientPurged.
  intuition congruence.
Qed.

Section WithTime.
Context `{rfctime}.

(** [Tag.Parse] on a string without [":"]. *)
Lemma Tag_Parse_no_colon t s k v :
  Cut s ":" = (k, v, false) -> Tag_Parse t s = (t, Some (ErrTagNoKey s)).
Proof. intros Hcut. unfold Tag_Parse. now rewrite Hcut. Qed.

(** [Tag.Parse] on a string with a [":"], by the cases of its [switch]. *)
Lemma Tag_Parse_colon t s k v :
  Cut s ":" = (k, v, true) ->
  Tag_Parse t s =
    let parsed := ({| Key := TrimSpace k; Value := TrimSpace v |}, None) in
    if String.eqb (TrimSpace k) "knit#timestamp" then
      match ParseRFC3339DateTime (TrimSpace v) with
      | Some _ => parsed
      | None => (t, Some (ErrTagNotTimestamp s))
      end
    else if String.eqb (TrimSpace k) "knit#transient" then
      if String.eqb (TrimSpace v) ValueKnitTransientProcessing
         || String.eqb (TrimSpace v) ValueKnitTransientFailed
         || String.eqb (TrimSpace v) ValueKnitTransientPurged
      then parsed
      else (t, Some ErrTagTransient)
    else parsed.
Proof.
  intros Hcut. unfold Tag_Parse. rewrite Hcut. cbn [negb]. cbv zeta.
  rewrite KeyKnitTimestamp_eq, KeyKnitTransient_eq.
  destruct (String.eqb (TrimSpace k) "knit#timestamp").
  - now destruct (ParseRFC3339DateTime (TrimSpace v)).
  - destruct (String.eqb (TrimSpace k) "knit#transient"); [|reflexivity].
    now destruct (_ || _).
Qed.

(** A failed [Tag.Parse] leaves its receiver as it was. *)
Lemma Tag_Parse_failure_unchanged t s :
  snd (Tag_Parse t s) <> None -> fst (Tag_Parse t s) = t.
Proof.
  destruct (Cut s ":") as [[k v] [|]] eqn:Hcut.
  - rewrite (Tag_Parse_colon t s k v Hcut). cbv zeta.
    repeat match goal with
           | |- context [if ?b then _ else _] => destruct b
           | |- context [match ?o with Some _ => _ | None => _ end] => destruct o
           end; simpl; congruence.
  - now rewrite (Tag_Parse_no_colon t s k v Hcut).
Qed.

(** C1. [Tag.Equal] is true exactly when the keys are the same string and
    either the key is not ["knit#timestamp"] and the values are the same
    string, or the key is ["knit#timestamp"], both values parse as RFC 3339
    timestamps and the two timestamps are equivalent.  A value that does not
    parse makes the tags unequal; [Tag.Equal] is a total function to [bool],
    so no error comes out of it. *)
Theorem Tag_Equal_spec (a b : Tag) :
  Tag_Equal a b = true <->
  Key a = Key b /\
  (Key a <> "knit#timestamp" -> Value a = Value b) /\
  (Key a = "knit#timestamp" ->
     exists vA vB,
       ParseRFC3339DateTime (Value a) = Some vA /\
       ParseRFC3339DateTime (Value b) = Some vB /\
       Equiv vA vB = true).
Proof.
  unfold Tag_Equal. rewrite KeyKnitTimestamp_eq.
  destruct (String.eqb_spec (Key a) (Key b)) as [Hk|Hk]; cbn [negb].
  2:{ split; [discriminate|]. intros [? _]. contradiction. }
  destruct (String.eqb_spec (Key a) "knit#timestamp") as [Ht|Ht]; cbn [negb].
  - destruct (ParseRFC3339DateTime (Value a)) as [vA|];
      destruct (ParseRFC3339DateTime (Value b)) as [vB|].
    + split.
      * intros He. split; [assumption|]. split; [contradiction|].
        intros _. now exists vA, vB.
      * intros (_ & _ & Hp). destruct (Hp Ht) as (? & ? & [= <-] & [= <-] & He).
        assumption.
    + split; [discriminate|].
      intros (_ & _ & Hp). destruct (Hp Ht) as (? & ? & _ & ? & _). discriminate.
    + split; [discriminate|].
      intros (_ & _ & Hp). destruct (Hp Ht) as (? & ? & ? & _). discriminate.
    + split; [discriminate|].
      intros (_ & _ & Hp). destruct (Hp Ht) as (? & ? & ? & _). discriminate.
  - rewrite String.eqb_eq. split.
    + intros Hv. repeat split; [assumption| |contradiction]. now intros _.
    + intros (_ & Hv & _). now apply Hv.
Qed.


(** The canonical string of a tag whose key has no [":"] splits at the
    colon that [Tag.String] wrote. *)
Lemma Tag_String_Cut t :
  ~ In ":"%char (chars (Key t)) -> Cut (Tag_String t) ":" = (Key t, Value t, true).
Proof. intros Hk. unfold Tag_String. now apply (Cut_app (Key t) ":" (Value t)). Qed.

Lemma Tag_String_has_colon t : In ":"%char (chars (Tag_String t)).
Proof.
  unfold Tag_String. rewrite chars_app. apply in_or_app. right. now left.
Qed.

(** What a successful [Tag.Parse] stores. *)
Lemma Tag_Parse_success t0 s t :
  Tag_Parse t0 s = (t, None) ->
  exists k v, Cut s ":" = (k, v, true) /\
              t = {| Key := TrimSpace k; Value := TrimSpace v |} /\
              (TrimSpace k = "knit#timestamp" -> ParseRFC3339DateTime (TrimSpace v) <> None) /\
              (TrimSpace k = "knit#transient" -> In (TrimSpace v) transient_values).
Proof.
  destruct (Cut s ":") as [[k v] [|]] eqn:Hcut.
  - rewrite (Tag_Parse_colon t0 s k v Hcut). cbv zeta. intros HP.
    exists k, v. split; [reflexivity|].
    destruct (String.eqb_spec (TrimSpace k) "knit#timestamp") as [Ht|Ht].
    + destruct (ParseRFC3339DateTime (TrimSpace v)) eqn:Hp; [|discriminate].
      injection HP as <-. repeat split; [congruence|].
      rewrite Ht. discriminate.
    + destruct (String.eqb_spec (TrimSpace k) "knit#transient") as [Hr|Hr].
      * destruct (_ || _) eqn:Hv in HP; [|discriminate].
        injection HP as <-. repeat split; [contradiction|].
        intros _. now apply transient_values_ok.
      * injection HP as <-. repeat split; contradiction.
  - rewrite (Tag_Parse_no_colon t0 s k v Hcut). discriminate.
Qed.

(** Every tag that [Tag.Parse] produces is canonical. *)
Lemma Tag_Parse_canonical t0 s t : Tag_Parse t0 s = (t, None) -> canonical t.
Proof.
  intros HP. destruct (Tag_Parse_success _ _ _ HP) as (k & v & Hcut & -> & Hts & Htr).
  apply Cut_found in Hcut as [_ Hk]. unfold canonical. simpl.
  rewrite !TrimSpace_idempotent. repeat split; try assumption.
  intros Hin. now apply TrimSpace_chars in Hin.
Qed.

(** A canonical tag is read back from its string. *)
Lemma Tag_Parse_String_canonical t0 t :
  canonical t -> Tag_Parse t0 (Tag_String t) = (t, None).
Proof.
  intros (Hk & HtK & HtV & Hts & Htr).
  rewrite (Tag_Parse_colon t0 _ _ _ (Tag_String_Cut t Hk)). cbv zeta.
  rewrite HtK, HtV. destruct t as [key val]; simpl in *.
  destruct (String.eqb_spec key "knit#timestamp") as [Ht|Ht].
  - destruct (ParseRFC3339DateTime val); [reflexivity|]. now destruct (Hts Ht).
  - destruct (String.eqb_spec key "knit#transient") as [Hr|Hr]; [|reflexivity].
    apply Htr, transient_values_ok in Hr. now rewrite Hr.
Qed.

(** C6, as amended.  Parsing the canonical string of a tag gives the tag
    back exactly when the tag is canonical: its key has no [":"], key and
    value carry no white space around them, and a ["knit#timestamp"] or
    ["knit#transient"] key has a valid value.  Every tag that [Tag.Parse]
    produces is of that kind. *)
Theorem Tag_Parse_String_roundtrip :
  (forall t0 t : Tag, Tag_Parse t0 (Tag_String t) = (t, None) <-> canonical t) /\
  (forall (t0 : Tag) (s : string) (t : Tag), Tag_Parse t0 s = (t, None) -> canonical t).
Proof.
  split; [|apply Tag_Parse_canonical].
  intros t0 t. split; [|apply Tag_Parse_String_canonical].
  apply Tag_Parse_canonical.
Qed.

(** [Tag.Parse] assigns both fields or none. *)
Lemma Tag_Parse_all_or_nothing t s :
  (snd (Tag_Parse t s) <> None /\ fst (Tag_Parse t s) = t) \/
  (snd (Tag_Parse t s) = None /\
   exists k v, first_colon_split s k v /\
               fst (Tag_Parse t s) = {| Key := TrimSpace k; Value := TrimSpace v |}).
Proof.
  destruct (Tag_Parse t s) as [t' [e|]] eqn:HP; simpl.
  - left. split; [discriminate|].
    change t' with (fst (t', Some e)). rewrite <- HP.
    apply Tag_Parse_failure_unchanged. rewrite HP. discriminate.
  - right. split; [reflexivity|].
    destruct (Tag_Parse_success _ _ _ HP) as (k & v & Hcut & -> & _).
    exists k, v. split; [now apply first_colon_split_Cut|reflexivity].
Qed.

(** C7 fails for the object form.  Decoding [{"key":"k1","value":null}]
    (an input of [TestTagParsing], which expects the error) into a tag returns
    the error and has already replaced the key of the tag, while
    [Tag.Parse], [UserTag.Parse], [UserTag.UnmarshalJSON] and
    [Change.UnmarshalJSON] assign only once every check has passed. *)
Theorem Tag_unarshal_partial_on_failure :
  Tag_UnmarshalJSON {| Key := "old"; Value := "oldv" |}
    (JObject [("key", JString "k1"); ("value", JNull)])
  = ({| Key := "k1"; Value := "oldv" |}, Some (ErrFieldValueMissing "value")).
Proof. reflexivity. Qed.

(** C9. A tag whose key is ["knit#timestamp"] and whose value does not
    parse as a timestamp is not equal to itself. *)
Theorem Tag_Equal_not_reflexive (t : Tag) :
  Key t = "knit#timestamp" ->
  ParseRFC3339DateTime (Value t) = None ->
  Tag_Equal t t = false.
Proof.
  intros Hk Hp. unfold Tag_Equal.
  rewrite String.eqb_refl, Hk, KeyKnitTimestamp_eq, String.eqb_refl. cbn [negb].
  now rewrite Hp.
Qed.

End WithTime.

(** C6, as the specification states it, fails: the tag with key ["a:b"] and
    value ["c"] is written as ["a:b:c"], which is read as key ["a"] and value
    ["b:c"]. *)
Lemma Tag_Parse_String_counterexample :
  ~ (forall (R : rfctime) (t0 t : Tag), Tag_Parse t0 (Tag_String t) = (t, None)).
Proof.
  intros Hall.
  specialize (Hall rfctime_model.model Tag_zero {| Key := "a:b"; Value := "c" |}).
  vm_compute in Hall. discriminate.
Qed.

(** With the model of [rfctime]: the examples of the specification. *)
Example Tag_Equal_same_instant :
  Tag_Equal (H := rfctime_model.model)
    {| Key := "knit#timestamp"; Value := "2024-01-01T00:00:00Z" |}
    {| Key := "knit#timestamp"; Value := "2024-01-01T09:00:00+09:00" |} = true.
Proof. vm_compute. reflexivity. Qed.

Example Tag_Equal_not_a_date :
  Tag_Equal (H := rfctime_model.model)
    {| Key := "knit#timestamp"; Value := "2024-01-01T00:00:00Z" |}
    {| Key := "knit#timestamp"; Value := "not-a-date" |} = false.
Proof. vm_compute. reflexivity. Qed.

Example Tag_Parse_transient_processing :
  Tag_Parse (H := rfctime_model.model) Tag_zero "knit#transient:processing"
  = ({| Key := "knit#transient"; Value := "processing" |}, None).
Proof. vm_compute. reflexivity. Qed.

Example Tag_Parse_transient_bogus :
  Tag_Parse (H := rfctime_model.model) Tag_zero "knit#transient:bogus"
  = (Tag_zero, Some ErrTagTransient).
Proof. vm_compute. reflexivity. Qed.

Example Tag_Parse_later_colons :
  Tag_Parse (H := rfctime_model.model) Tag_zero "aaa :bbb:ccc"
  = ({| Key := "aaa"; Value := "bbb:ccc" |}, None).
Proof. vm_compute. reflexivity. Qed.

(** A tag that is not equal to itself. *)
Lemma Tag_Equal_not_reflexive_witness :
  let t := {| Key := "knit#timestamp"; Value := "not-a-date" |} in
  Key t = "knit#timestamp" /\
  ParseRFC3339DateTime (rfctime := rfctime_model.model) (Value t) = None /\
  Tag_Equal (H := rfctime_model.model) t t = false.
Proof.
  intros t. split; [reflexivity|]. split; [reflexivity|].
  apply (Tag_Equal_not_reflexive (H := rfctime_model.model) t); reflexivity.
Defined.

End tags_facts.

(** ** Decoding change sets *)

Module json_facts.
Import json.

Lemma find_field_In {F : Type} (fields : list (string * F)) name f :
  find_field fields name = Some f -> exists n, In (n, f) fields.
Proof.
  unfold find_field.
  destruct (List.find (fun f => String.eqb f.1 name) fields) as [[n g]|] eqn:H1; simpl.
  - intros [= <-]. exists n. now apply List.find_some in H1 as [? _].
  - destruct (List.find (fun f => String.eqb (foldName f.1) (foldName name)) fields)
      as [[n g]|] eqn:H2; simpl; [|discriminate].
    intros [= <-]. exists n. now apply List.find_some in H2 as [? _].
Qed.

(** What every field decoder preserves, the decoding of the members
    preserves. *)
Lemma unmarshal_members_invariant {S : Type} (P : S -> Prop)
    (fields : list (string * (S -> value -> decoder S))) :
  (forall n f s v sv s' sv',
     In (n, f) fields -> P s -> f s v sv = Ok (s', sv') -> P s') ->
  forall members s sv s' sv',
    P s -> unmarshal_members fields members s sv = Ok (s', sv') -> P s'.
Proof.
  intros Hf. induction members as [|[name v] members IH]; intros s sv s' sv' Hs; simpl.
  - unfold ret. now intros [= <- _].
  - destruct (find_field fields name) as [f|] eqn:Hfind; [|now apply IH].
    apply find_field_In in Hfind as (n & Hin).
    unfold bind. destruct (f s v sv) as [[s1 sv1]|e] eqn:Hfs; [|discriminate].
    apply IH. now apply (Hf n f s v sv s1 sv1).
Qed.

Lemma unmarshal_elements_Forall {A : Type} (Q : A -> Prop) (elem : value -> decoder A) :
  (forall v sv a sv', elem v sv = Ok (a, sv') -> Q a) ->
  forall l sv r sv', unmarshal_elements elem l sv = Ok (r, sv') -> Forall Q r.
Proof.
  intros He. induction l as [|v l IH]; intros sv r sv'; simpl.
  - unfold ret. intros [= <- _]. constructor.
  - unfold bind. destruct (elem v sv) as [[a sv1]|e] eqn:Hv; [|discriminate].
    destruct (unmarshal_elements elem l sv1) as [[r1 sv2]|e] eqn:Hl; [|discriminate].
    unfold ret. intros [= <- _]. constructor; [now apply (He v sv a sv1)|].
    now apply (IH sv1 r1 sv2).
Qed.

Lemma unmarshal_slice_Forall {A : Type} (Q : A -> Prop) (elem : value -> decoder A) :
  (forall v sv a sv', elem v sv = Ok (a, sv') -> Q a) ->
  forall old v sv r sv',
    Forall Q old -> unmarshal_slice elem old v sv = Ok (r, sv') -> Forall Q r.
Proof.
  intros He old v sv r sv' Hold. destruct v; simpl;
    try (unfold bind, saveError, ret; destruct sv; now intros [= <- _]).
  now apply unmarshal_elements_Forall.
Qed.

(** JSON strings decode to themselves. *)
Lemma unmarshal_elements_strings l sv :
  unmarshal_elements string_element (map JString l) sv = Ok (l, sv).
Proof.
  induction l as [|s l IH]; simpl; [reflexivity|].
  unfold bind, ret in *. simpl. now rewrite IH.
Qed.

(** Elements with an [UnmarshalJSON] method: the first failure stops the
    decoding, and without a failure every element is decoded. *)
Lemma unmarshal_elements_unmarshaler {A : Type} (f : A -> value -> A * option error)
    (zero : A) l sv :
  unmarshal_elements (unmarshaler_element f zero) l sv =
    match first_failure (f zero) l with
    | Some e => Err e
    | None => Ok (map (fun v => fst (f zero v)) l, sv)
    end.
Proof.
  induction l as [|v l IH]; [reflexivity|].
  cbn [unmarshal_elements map first_failure].
  unfold bind, unmarshaler_element at 1.
  destruct (f zero v) as [a [e|]] eqn:Hf; cbn [snd fst]; [reflexivity|].
  unfold ret at 1. rewrite IH.
  now destruct (first_failure (f zero) l).
Qed.

Lemma first_failure_None {A : Type} (f : value -> A * option error) l :
  first_failure f l = None <-> Forall (fun v => snd (f v) = None) l.
Proof.
  induction l as [|v l IH]; simpl; [split; [constructor|reflexivity]|].
  destruct (snd (f v)) eqn:Hv.
  - split; [discriminate|]. intros Hf. inversion Hf; congruence.
  - rewrite IH. split; [now constructor|]. intros Hf. now inversion Hf.
Qed.

(** *** Which errors a decoder can report *)

Section Errors.
Variable E : error -> Prop.

Lemma errors_in_ret {A : Type} (a : A) : errors_in E (ret a).
Proof. intros saved Hs. exact Hs. Qed.

Lemma errors_in_fail {A : Type} (e : error) : E e -> errors_in E (fail (A := A) e).
Proof. intros He saved Hs. exact He. Qed.

Lemma errors_in_saveError (e : error) : E e -> errors_in E (saveError e).
Proof.
  intros He saved Hs. unfold saveError. destruct saved as [e0|]; [exact Hs|].
  now intros e' [= <-].
Qed.

Lemma errors_in_bind {A B : Type} (d : decoder A) (k : A -> decoder B) :
  errors_in E d -> (forall a, errors_in E (k a)) -> errors_in E (bind d k).
Proof.
  intros Hd Hk saved Hs. unfold bind. specialize (Hd saved Hs).
  destruct (d saved) as [[a saved']|e]; [|exact Hd].
  now apply Hk.
Qed.

Lemma errors_in_elements {A : Type} (elem : value -> decoder A) l :
  (forall v, errors_in E (elem v)) -> errors_in E (unmarshal_elements elem l).
Proof.
  intros He. induction l as [|v l IH]; simpl; [apply errors_in_ret|].
  apply errors_in_bind; [apply He|]. intros a.
  apply errors_in_bind; [apply IH|]. intros r. apply errors_in_ret.
Qed.

Lemma errors_in_slice {A : Type} (elem : value -> decoder A) old v :
  E ErrUnmarshalType ->
  (forall v, errors_in E (elem v)) -> errors_in E (unmarshal_slice elem old v).
Proof.
  intros Ht He. destruct v; simpl;
    try (apply errors_in_bind; [now apply errors_in_saveError|intros; apply errors_in_ret]).
  - apply errors_in_ret.
  - now apply errors_in_elements.
Qed.

Lemma errors_in_string_element v : E ErrUnmarshalType -> errors_in E (string_element v).
Proof.
  intros Ht. destruct v; simpl; try apply errors_in_ret;
    (apply errors_in_bind; [now apply errors_in_saveError|intros; apply errors_in_ret]).
Qed.

Lemma errors_in_unmarshaler {A : Type} (f : A -> value -> A * option error) zero v :
  (forall e, snd (f zero v) = Some e -> E e) ->
  errors_in E (unmarshaler_element f zero v).
Proof.
  intros Hf. unfold unmarshaler_element.
  destruct (f zero v) as [a [e|]]; [|apply errors_in_ret].
  apply errors_in_fail. now apply Hf.
Qed.

Lemma errors_in_members {S : Type} (fields : list (string * (S -> value -> decoder S)))
    members :
  (forall n f s v, In (n, f) fields -> errors_in E (f s v)) ->
  forall s, errors_in E (unmarshal_members fields members s).
Proof.
  intros Hf. induction members as [|[name v] members IH]; intros s; simpl.
  - apply errors_in_ret.
  - destruct (find_field fields name) as [f|] eqn:Hfind; [|apply IH].
    apply find_field_In in Hfind as (n & Hin).
    apply errors_in_bind; [now apply (Hf n)|]. intros s'. apply IH.
Qed.

Lemma errors_in_struct {S : Type} (fields : list (string * (S -> value -> decoder S)))
    s data :
  E ErrUnmarshalType ->
  (forall n f s v, In (n, f) fields -> errors_in E (f s v)) ->
  errors_in E (unmarshal_struct fields s data).
Proof.
  intros Ht Hf. destruct data; simpl;
    try (apply errors_in_bind; [now apply errors_in_saveError|intros; apply errors_in_ret]).
  - apply errors_in_ret.
  - now apply errors_in_members.
Qed.

Lemma errors_in_Unmarshal {A : Type} (d : decoder A) e :
  errors_in E d -> Unmarshal d = Err e -> E e.
Proof.
  intros Hd. unfold Unmarshal. specialize (Hd None). 
  destruct (d None) as [[a [e'|]]|e'].
  - intros [= <-]. apply Hd; [discriminate|reflexivity].
  - discriminate.
  - intros [= <-]. apply Hd. discriminate.
Qed.

End Errors.

End json_facts.

(** ** [tags.Change] *)

Module change_facts.
Import gostrings json tags json_facts.

Lemma first_failure_app {A : Type} (f : value -> A * option error) l1 l2 :
  first_failure f (l1 ++ l2) =
    match first_failure f l1 with
    | Some e => Some e
    | None => first_failure f l2
    end.
Proof.
  induction l1 as [|v l1 IH]; simpl; [reflexivity|].
  now destruct (snd (f v)).
Qed.

Lemma check_RemoveKey_spec keys :
  check_RemoveKey keys =
    if existsb reserved keys then Some ErrTagReservedNotRemovable else None.
Proof.
  induction keys as [|k keys IH]; simpl; [reflexivity|].
  unfold reserved at 1. now destruct (HasPrefix k SystemTagPrefix).
Qed.

Lemma check_RemoveKey_None keys :
  check_RemoveKey keys = None -> Forall (fun k => reserved k = false) keys.
Proof.
  induction keys as [|k keys IH]; simpl; [constructor|].
  destruct (HasPrefix k SystemTagPrefix) eqn:Hk; [discriminate|].
  intros Hc. constructor; [assumption|now apply IH].
Qed.

Section WithTime.
Context `{rfctime}.

(** [UserTag.UnmarshalJSON] is [Tag.UnmarshalJSON] followed by the test of
    the prefix. *)
Lemma UserTag_UnmarshalJSON_spec ut e :
  UserTag_UnmarshalJSON ut e =
    match snd (Tag_UnmarshalJSON Tag_zero e) with
    | Some err => (ut, Some err)
    | None =>
        if reserved (Key (element_tag e)) then (ut, Some ErrTagReserved)
        else (element_tag e, None)
    end.
Proof.
  unfold UserTag_UnmarshalJSON, element_tag, reserved.
  now destruct (Tag_UnmarshalJSON Tag_zero e) as [t [err|]].
Qed.

Lemma UserTag_UnmarshalJSON_not_reserved ut e t :
  UserTag_UnmarshalJSON ut e = (t, None) -> reserved (Key t) = false.
Proof.
  rewrite UserTag_UnmarshalJSON_spec.
  destruct (snd (Tag_UnmarshalJSON Tag_zero e)); [discriminate|].
  destruct (reserved (Key (element_tag e))) eqn:Hr; [discriminate|].
  now intros [= <-].
Qed.


Lemma map_UserTag_UnmarshalJSON l :
  first_failure (UserTag_UnmarshalJSON Tag_zero) l = None ->
  map (fun v => fst (UserTag_UnmarshalJSON Tag_zero v)) l = map element_tag l.
Proof.
  induction l as [|e l IH]; simpl; [reflexivity|].
  rewrite UserTag_UnmarshalJSON_spec.
  destruct (snd (Tag_UnmarshalJSON Tag_zero e)); [discriminate|].
  destruct (reserved (Key (element_tag e))); [discriminate|].
  simpl. intros Hl. now rewrite IH.
Qed.

(** The tags that a field decoder of [raw] stores carry no reserved key. *)
Lemma UserTag_slice_not_reserved old v sv r sv' :
  Forall (fun t => reserved (Key t) = false) old ->
  unmarshal_slice (unmarshaler_element UserTag_UnmarshalJSON Tag_zero) old v sv = Ok (r, sv') ->
  Forall (fun t => reserved (Key t) = false) r.
Proof.
  apply unmarshal_slice_Forall. clear. intros v sv a sv'.
  unfold unmarshaler_element.
  destruct (UserTag_UnmarshalJSON Tag_zero v) as [t [e|]] eqn:Hu; [discriminate|].
  unfold ret. intros [= <- _]. now apply UserTag_UnmarshalJSON_not_reserved in Hu.
Qed.

Lemma user_keys_only_zero : user_keys_only Change_zero.
Proof. split; constructor. Qed.

Lemma raw_fields_user_keys_only members r sv r' sv' :
  user_keys_only r ->
  unmarshal_members raw_fields members r sv = Ok (r', sv') ->
  user_keys_only r'.
Proof.
  apply (unmarshal_members_invariant user_keys_only). clear.
  intros n f s v sv s' sv' Hin [Ha Hr].
  destruct Hin as [[= <- <-]|[[= <- <-]|[[= <- <-]|[]]]];
    unfold raw_add, raw_remove, raw_remove_key, bind.
  - destruct (unmarshal_slice _ (AddTags s) v sv) as [[l sv1]|e] eqn:Hs; [|discriminate].
    unfold ret. intros [= <- _]. split; simpl; [|assumption].
    now apply (UserTag_slice_not_reserved _ _ _ _ _ Ha Hs).
  - destruct (unmarshal_slice _ (RemoveTags s) v sv) as [[l sv1]|e] eqn:Hs; [|discriminate].
    unfold ret. intros [= <- _]. split; simpl; [assumption|].
    now apply (UserTag_slice_not_reserved _ _ _ _ _ Hr Hs).
  - destruct (unmarshal_slice _ (RemoveKey s) v sv) as [[l sv1]|e] eqn:Hs; [|discriminate].
    unfold ret. intros [= <- _]. split; simpl; assumption.
Qed.

(** No [Change] that was decoded carries a reserved key. *)
Lemma Change_UnmarshalJSON_user_keys c data c' :
  Change_UnmarshalJSON c data = (c', None) ->
  Forall (fun t => reserved (Key t) = false) (AddTags c' ++ RemoveTags c') /\
  Forall (fun k => reserved k = false) (RemoveKey c').
Proof.
  unfold Change_UnmarshalJSON, Unmarshal.
  destruct (unmarshal_struct raw_fields Change_zero data None) as [[r [e|]]|e] eqn:Hd;
    try discriminate.
  destruct (check_RemoveKey (RemoveKey r)) eqn:Hc; [discriminate|].
  intros [= <-]. simpl. split; [|now apply check_RemoveKey_None].
  assert (Hr : user_keys_only r).
  { destruct data; simpl in Hd;
      try (unfold bind, saveError, ret in Hd; discriminate).
    - injection Hd as <-. split; constructor.
    - apply (raw_fields_user_keys_only _ _ _ _ _ user_keys_only_zero Hd). }
  destruct Hr as [Ha Hr]. apply Forall_app. now split.
Qed.


(** The decoding of a body of the documented shape. *)
Lemma Change_UnmarshalJSON_body c add remove keys :
  Change_UnmarshalJSON c (change_body add remove (map JString keys)) =
    match first_failure (UserTag_UnmarshalJSON Tag_zero) (add ++ remove) with
    | Some e => (c, Some e)
    | None =>
        if existsb reserved keys then (c, Some ErrTagReservedNotRemovable)
        else ({| AddTags := map element_tag add;
                 RemoveTags := map element_tag remove;
                 RemoveKey := keys |}, None)
    end.
Proof.
  unfold Change_UnmarshalJSON, Unmarshal, change_body, unmarshal_struct.
  cbn [unmarshal_members].
  change (find_field raw_fields "add") with (Some raw_add).
  change (find_field raw_fields "remove") with (Some raw_remove).
  change (find_field raw_fields "remove_key") with (Some raw_remove_key).
  cbv iota beta. rewrite first_failure_app.
  unfold bind at 1. unfold raw_add at 1, bind at 1. cbn [unmarshal_slice].
  rewrite unmarshal_elements_unmarshaler.
  destruct (first_failure (UserTag_UnmarshalJSON Tag_zero) add) eqn:Ha; [reflexivity|].
  unfold ret at 1. unfold bind at 1. unfold raw_remove at 1, bind at 1.
  cbn [unmarshal_slice]. rewrite unmarshal_elements_unmarshaler.
  destruct (first_failure (UserTag_UnmarshalJSON Tag_zero) remove) eqn:Hr; [reflexivity|].
  unfold ret at 1. unfold raw_remove_key, bind. cbn [unmarshal_slice].
  rewrite unmarshal_elements_strings. unfold ret. cbn [RemoveKey AddTags RemoveTags].
  rewrite check_RemoveKey_spec, !map_UserTag_UnmarshalJSON by assumption.
  now destruct (existsb reserved keys).
Qed.


End WithTime.


(** The four cases of [TestChange_unmarshal]. *)
Example Change_unmarshal_success :
  Change_UnmarshalJSON (H := rfctime_model.model) Change_zero
    (change_body [JString "key1:value1"; JString "key2:value2"]
                 [JString "key3:value3"; JString "key4:value4"]
                 [JString "key5"; JString "key6"])
  = ({| AddTags := [{| Key := "key1"; Value := "value1" |};
                    {| Key := "key2"; Value := "value2" |}];
        RemoveTags := [{| Key := "key3"; Value := "value3" |};
                       {| Key := "key4"; Value := "value4" |}];
        RemoveKey := ["key5"; "key6"] |}, None).
Proof. vm_compute. reflexivity. Qed.

Example Change_unmarshal_system_tag_in_add :
  Change_UnmarshalJSON (H := rfctime_model.model) Change_zero
    (change_body [JString "knit#key1:value1"]
                 [JString "key3:value3"; JString "key4:value4"]
                 [JString "key5"; JString "key6"])
  = (Change_zero, Some ErrTagReserved).
Proof. vm_compute. reflexivity. Qed.

Example Change_unmarshal_system_tag_in_remove :
  Change_UnmarshalJSON (H := rfctime_model.model) Change_zero
    (change_body [JString "key1:value1"]
                 [JString "knit#key3:value3"; JString "key4:value4"]
                 [JString "key5"; JString "key6"])
  = (Change_zero, Some ErrTagReserved).
Proof. vm_compute. reflexivity. Qed.

Example Change_unmarshal_system_tag_in_removeKey :
  Change_UnmarshalJSON (H := rfctime_model.model) Change_zero
    (change_body [JString "key1:value1"]
                 [JString "key3:value3"; JString "key4:value4"]
                 [JString "knit#key5"; JString "key6"])
  = (Change_zero, Some ErrTagReservedNotRemovable).
Proof. vm_compute. reflexivity. Qed.

End change_facts.

(** ** Annotations *)

Module plans_facts.
Import gostrings json plans json_facts gostrings_facts.

(** [Annotation.UnmarshalJSON] on a JSON string. *)
Lemma Annotation_UnmarshalJSON_string an s :
  Annotation_UnmarshalJSON an (JString s) =
    if snd (Cut s "=") then
      ({| Key := TrimSpace (fst (fst (Cut s "=")));
          Value := TrimSpace (snd (fst (Cut s "="))) |}, None)
    else (an, Some (ErrAnnotationFormat s)).
Proof.
  unfold Annotation_UnmarshalJSON, Annotation_parse. simpl.
  now destruct (Cut s "=") as [[k v] [|]].
Qed.

(** The reserved prefix of tags means nothing to [Annotation.parse]. *)
Lemma Annotation_parse_ignores_prefix an k v :
  ~ In "="%char (chars k) ->
  Annotation_parse an ("knit#" ++ k ++ "=" ++ v) =
    ({| Key := TrimSpace ("knit#" ++ k); Value := TrimSpace v |}, None).
Proof.
  intros Hk. unfold Annotation_parse.
  replace ("knit#" ++ k ++ "=" ++ v)%string with (("knit#" ++ k) ++ String "=" v)%string
    by reflexivity.
  rewrite Cut_app; [reflexivity|].
  rewrite chars_app. intros Hin. apply in_app_or in Hin as [Hin|Hin]; [|contradiction].
  simpl in Hin. intuition discriminate.
Qed.

(** The first malformed string is the first failure of the decoder. *)
Lemma first_failure_Annotation l :
  first_failure (Annotation_UnmarshalJSON Annotation_zero) (map JString l) =
    match List.find malformed l with
    | Some s => Some (ErrAnnotationFormat s)
    | None => None
    end.
Proof.
  induction l as [|s l IH]; simpl; [reflexivity|].
  rewrite Annotation_UnmarshalJSON_string. unfold malformed at 1.
  destruct (snd (Cut s "=")); simpl; [assumption|reflexivity].
Qed.

Lemma map_Annotation_UnmarshalJSON l :
  map (fun v => fst (Annotation_UnmarshalJSON Annotation_zero v)) (map JString l)
  = map annotation_of l.
Proof. rewrite map_map. reflexivity. Qed.

Lemma find_app {A : Type} (f : A -> bool) l1 l2 :
  List.find f (l1 ++ l2) =
    match List.find f l1 with Some x => Some x | None => List.find f l2 end.
Proof. induction l1 as [|x l1 IH]; simpl; [reflexivity|]. now destruct (f x). Qed.

(** The decoding of a body of the documented shape. *)
Lemma AnnotationChange_Unmarshal_body ac adds rems keys :
  AnnotationChange_Unmarshal ac
    (change_body (map JString adds) (map JString rems) (map JString keys)) =
    match List.find malformed (adds ++ rems) with
    | Some s => Err (ErrAnnotationFormat s)
    | None => Ok {| Add := map annotation_of adds;
                    Remove := map annotation_of rems;
                    RemoveKey := keys |}
    end.
Proof.
  unfold AnnotationChange_Unmarshal, Unmarshal, change_body, unmarshal_struct.
  cbn [unmarshal_members].
  change (find_field AnnotationChange_fields "add") with (Some AnnotationChange_add).
  change (find_field AnnotationChange_fields "remove") with (Some AnnotationChange_remove).
  change (find_field AnnotationChange_fields "remove_key")
    with (Some AnnotationChange_remove_key).
  cbv iota beta. rewrite find_app.
  unfold bind at 1. unfold AnnotationChange_add at 1, bind at 1. cbn [unmarshal_slice].
  rewrite unmarshal_elements_unmarshaler, first_failure_Annotation.
  destruct (List.find malformed adds) eqn:Ha; [reflexivity|].
  unfold ret at 1. unfold bind at 1. unfold AnnotationChange_remove at 1, bind at 1.
  cbn [unmarshal_slice].
  rewrite unmarshal_elements_unmarshaler, first_failure_Annotation.
  destruct (List.find malformed rems) eqn:Hr; [reflexivity|].
  unfold ret at 1. unfold AnnotationChange_remove_key, bind. cbn [unmarshal_slice].
  rewrite unmarshal_elements_strings. unfold ret. cbn [RemoveKey Add Remove].
  now rewrite !map_Annotation_UnmarshalJSON.
Qed.

(** The errors of [Annotation.UnmarshalJSON]. *)
Lemma Annotation_UnmarshalJSON_errors an v e :
  snd (Annotation_UnmarshalJSON an v) = Some e -> is_policy_error e = false.
Proof.
  unfold Annotation_UnmarshalJSON, Annotation_parse.
  destruct (unmarshal_string v) as [s|]; simpl; [|now intros [= <-]].
  destruct (Cut s "=") as [[k w] [|]]; simpl; [discriminate|now intros [= <-]].
Qed.

(** No decoding of an [AnnotationChange] reports a reserved key. *)
Lemma AnnotationChange_Unmarshal_errors ac data e :
  AnnotationChange_Unmarshal ac data = Err e -> is_policy_error e = false.
Proof.
  apply (errors_in_Unmarshal (fun e => is_policy_error e = false)).
  apply errors_in_struct; [reflexivity|].
  intros n f s v Hin.
  destruct Hin as [[= <- <-]|[[= <- <-]|[[= <- <-]|[]]]];
    unfold AnnotationChange_add, AnnotationChange_remove, AnnotationChange_remove_key;
    (apply errors_in_bind; [|intros; apply errors_in_ret]);
    apply errors_in_slice; try reflexivity; intros w.
  - apply errors_in_unmarshaler. apply Annotation_UnmarshalJSON_errors.
  - apply errors_in_unmarshaler. apply Annotation_UnmarshalJSON_errors.
  - now apply errors_in_string_element.
Qed.

(** C5, as amended.  Decoding an [AnnotationChange] parses the elements of
    [add] and [remove] with [Annotation.parse] and takes the strings of
    [remove_key] as they are; there is no pass over the keys afterwards.  A
    body of strings fails on its first element without ["="], with the format
    error of that element, and otherwise decodes into the three lists,
    whatever prefix the keys carry; and no body at all is refused with the
    policy error of the reserved prefix. *)
Theorem AnnotationChange_Unmarshal_no_reserved_check :
  (forall ac adds rems keys,
     AnnotationChange_Unmarshal ac
       (change_body (map JString adds) (map JString rems) (map JString keys)) =
       match List.find malformed (adds ++ rems) with
       | Some s => Err (ErrAnnotationFormat s)
       | None => Ok {| Add := map annotation_of adds;
                       Remove := map annotation_of rems;
                       RemoveKey := keys |}
       end) /\
  (forall ac data e,
     AnnotationChange_Unmarshal ac data = Err e -> is_policy_error e = false).
Proof.
  split; [exact AnnotationChange_Unmarshal_body|exact AnnotationChange_Unmarshal_errors].
Qed.

(** C5, as the specification states it, fails: a body whose keys all carry
    the prefix ["knit#"] is decoded. *)
Lemma AnnotationChange_Unmarshal_counterexample :
  tags.reserved "knit#id" = true /\
  AnnotationChange_Unmarshal AnnotationChange_zero
    (change_body [JString "knit#id=x"] [JString "knit#id=y"] [JString "knit#id"])
  = Ok {| Add := [{| Key := "knit#id"; Value := "x" |}];
          Remove := [{| Key := "knit#id"; Value := "y" |}];
          RemoveKey := ["knit#id"] |}.
Proof. split; vm_compute; reflexivity. Qed.

End plans_facts.

(** ** Sorting and the canonical form of annotations *)

Module slices_facts.
Import slices.

Section Sort.
Context {E : Type}.
Variable compare : E -> E -> Z.
Variable before : E -> E -> Prop.

(** [compare] decides the order [before], which is total and transitive. *)
Hypothesis compare_before : forall x y, (compare x y <= 0)%Z <-> before x y.
Hypothesis before_total : forall x y, before x y \/ before y x.
Hypothesis before_trans : forall x y z, before x y -> before y z -> before x z.







End Sort.
End slices_facts.

Module annotations_facts.
Import gostrings json plans cmp cmp_facts slices_facts.












(** [Annotation.Equal] is equality of the two strings. *)
Lemma Annotation_Equal_eq x y : Annotation_Equal x y = true <-> x = y.
Proof.
  unfold Annotation_Equal. rewrite andb_true_iff, !String.eqb_eq.
  destruct x, y; simpl. split; [intros [-> ->]; reflexivity|now intros [= -> ->]].
Qed.

Lemma Annotation_Equal_equivalence : equivalence Annotation_Equal.
Proof.
  repeat split.
  - intros x. now apply Annotation_Equal_eq.
  - intros x y. rewrite !Annotation_Equal_eq. congruence.
  - intros x y z. rewrite !Annotation_Equal_eq. congruence.
Qed.

(** [Annotations.Equal] is equality of multisets. *)
Lemma Annotations_Equal_Permutation a b :
  Annotations_Equal a b = true <-> Permutation a b.
Proof.
  unfold Annotations_Equal.
  rewrite (SliceEqualUnordered_matching _ Annotation_Equal_equivalence).
  split.
  - intros (b' & Hp & Hf).
    assert (a = b') as ->; [|now symmetry].
    clear Hp. induction Hf as [|x y a b' Hxy Hf IH]; [reflexivity|].
    apply Annotation_Equal_eq in Hxy. now subst.
  - intros Hp. exists a. split; [now symmetry|].
    clear Hp. induction a; constructor; [now apply Annotation_Equal_eq|assumption].
Qed.


Example Annotations_Equal_any_order :
  Annotations_Equal
    [ {| Key := "b"; Value := "2" |}; {| Key := "a"; Value := "1" |} ]
    [ {| Key := "a"; Value := "1" |}; {| Key := "b"; Value := "2" |} ] = true.
Proof. reflexivity. Qed.

End annotations_facts.

(** ** Runs *)

Module runs_facts.
Import runs.

Section WithTime.
Context `{rfctime}.

(** [Detail.Equal] never reads [Exit]. *)
Lemma Detail_Equal_with_Exit (d o : Detail) (e1 e2 : option Exit) :
  Detail_Equal (with_Exit d e1) (with_Exit o e2) = Detail_Equal d o.
Proof. reflexivity. Qed.


End WithTime.


End runs_facts.

(** ** The engine on the integers of its tests *)

Module cmp_examples.
Import cmp cmp_facts.

Lemma Int_Equal_equivalence : equivalence Int_Equal.
Proof.
  unfold Int_Equal. repeat split.
  - intros x. apply Z.eqb_refl.
  - intros x y. rewrite !Z.eqb_eq. congruence.
  - intros x y z. rewrite !Z.eqb_eq. congruence.
Qed.

(** The cases of [TestSliceEqualUnordered]. *)
Example SliceEqualUnordered_tests :
  SliceEqualUnordered Int_Equal [] [] = true /\
  SliceEqualUnordered Int_Equal [1; 2; 3]%Z [1; 2; 3]%Z = true /\
  SliceEqualUnordered Int_Equal [1; 2; 3]%Z [3; 2; 1]%Z = true /\
  SliceEqualUnordered Int_Equal [1; 2; 3]%Z [1; 2; 4]%Z = false /\
  SliceEqualUnordered Int_Equal [1; 2; 3]%Z [1; 2]%Z = false /\
  SliceEqualUnordered Int_Equal [1; 2]%Z [1; 2; 3]%Z = false.
Proof. repeat split. Qed.

(** On the integers: [[1; 2; 3]] and [[3; 2; 1]] are equal as unordered
    slices, and there is a bijection between them. *)
Lemma SliceEqualUnordered_bijection_witness :
  equivalence Int_Equal /\
  SliceEqualUnordered Int_Equal [1; 2; 3]%Z [3; 2; 1]%Z = true /\
  bijection Int_Equal [1; 2; 3]%Z [3; 2; 1]%Z.
Proof.
  split; [exact Int_Equal_equivalence|]. split; [reflexivity|].
  apply (proj1 (SliceEqualUnordered_bijection Int_Equal Int_Equal_equivalence)).
  reflexivity.
Defined.

End cmp_examples.

(** ** More on the equality engine *)

Module cmp_more.
Import cmp cmp_facts.

Section Any.
Context {T : Type}.
Variable Equal : T -> T -> bool.

Lemma SliceEqual_loop_Forall2 a : forall b,
  length a = length b ->
  (SliceEqual_loop Equal a b = true <-> Forall2 (fun x y => Equal x y = true) a b).
Proof.
  induction a as [|x a IH]; intros [|y b] Hlen; simpl in *; try discriminate.
  - split; [constructor|reflexivity].
  - destruct (Equal x y) eqn:Hxy; simpl.
    + rewrite IH by lia. split; [now constructor|]. intros Hf. now inversion Hf.
    + split; [discriminate|]. intros Hf. inversion Hf. congruence.
Qed.

Lemma SliceEqual_Forall2 a b :
  SliceEqual Equal a b = true <-> Forall2 (fun x y => Equal x y = true) a b.
Proof.
  unfold SliceEqual. destruct (Nat.eqb_spec (length a) (length b)) as [Hlen|Hlen]; simpl.
  - now apply SliceEqual_loop_Forall2.
  - split; [discriminate|]. intros Hf. now apply Forall2_length in Hf.
Qed.

(** Elements that line up are found by the first-match loop. *)
Lemma consume_Forall2 a b :
  Forall2 (fun x y => Equal x y = true) a b -> consume Equal a b = true.
Proof.
  induction 1 as [|x y a b Hxy Hf IH]; simpl; [reflexivity|]. now rewrite Hxy.
Qed.

(** X1. [SliceEqual] is true exactly when the slices have the same length
    and [Equal] holds at every position. *)
Theorem SliceEqual_positionwise (a b : list T) :
  SliceEqual Equal a b = true <->
  length a = length b /\
  forall i x y, a !! i = Some x -> b !! i = Some y -> Equal x y = true.
Proof.
  rewrite SliceEqual_Forall2. split.
  - intros Hf. split; [now apply Forall2_length in Hf|].
    intros i x y Hx Hy. destruct (Forall2_lookup_l _ _ _ _ _ Hf Hx) as (y' & Hy' & Hxy).
    congruence.
  - intros [Hlen Hp]. now apply Forall2_same_length_lookup_2.
Qed.

(** X2. Slices that are equal in order are equal as unordered slices,
    whatever [Equal] is. *)
Theorem SliceEqual_SliceEqualUnordered (a b : list T) :
  SliceEqual Equal a b = true -> SliceEqualUnordered Equal a b = true.
Proof.
  rewrite SliceEqual_Forall2. intros Hf. unfold SliceEqualUnordered.
  rewrite (Forall2_length _ _ _ Hf), Nat.eqb_refl. simpl. now apply consume_Forall2.
Qed.

(** X3. Whatever [Equal] is, [SliceEqualUnordered] answers true only when
    there is a bijection between the positions of the two slices that pairs
    [Equal] elements. *)
Theorem SliceEqualUnordered_sound (a b : list T) :
  SliceEqualUnordered Equal a b = true -> bijection Equal a b.
Proof.
  unfold SliceEqualUnordered.
  destruct (Nat.eqb (length a) (length b)); simpl; [|discriminate].
  intros Hc. apply bijection_matching. now apply consume_sound.
Qed.

Section Partial.
Hypothesis Equal_per : partial_equivalence Equal.

Lemma matching_replace_per a z y l :
  Equal z y = true -> matching Equal a (z :: l) -> matching Equal a (y :: l).
Proof.
  destruct Equal_per as (_ & Equal_trans).
  intros Hzy (b' & Hp & Hf).
  destruct (Permutation_cons_inv_l _ _ _ Hp) as (k1 & k2 & -> & Hl).
  apply Forall2_app_inv_r in Hf as (a1 & a2 & Hf1 & Hf2 & ->).
  inversion Hf2 as [|x' ? a2' ? Hx' Hf2']; subst.
  exists (k1 ++ y :: k2). split; [now apply Permutation_cons_app|].
  apply Forall2_app; [assumption|]. constructor; [|assumption].
  now apply Equal_trans with z.
Qed.

Lemma consume_complete_per a : forall b, matching Equal a b -> consume Equal a b = true.
Proof.
  destruct Equal_per as (Equal_sym & Equal_trans).
  induction a as [|x a IH]; intros b (b' & Hp & Hf); simpl.
  - inversion Hf; subst. apply Permutation_sym, Permutation_nil in Hp. now subst.
  - inversion Hf as [|? y ? b3 Hxy Hf']; subst.
    destruct (remove_first_match Equal x b) as [r|] eqn:Hr.
    + apply IH.
      destruct (remove_first_match_Some _ _ _ _ Hr) as (z & Hz & Hpz).
      assert (Hzy : Equal z y = true).
      { apply Equal_trans with x; [now apply Equal_sym|assumption]. }
      assert (Hp2 : Permutation (z :: r) (y :: b3)) by now rewrite <- Hpz.
      destruct (Permutation_cons_inv_l _ _ _ Hp2) as (k1 & k2 & Hk & Hr').
      destruct k1 as [|y' k1]; simpl in Hk; injection Hk as Hk1 Hk2; subst.
      * exists k2. split; assumption.
      * apply matching_perm_r with (y' :: k1 ++ k2); [now symmetry|].
        apply matching_replace_per with z; [assumption|].
        exists (k1 ++ z :: k2). split; [apply Permutation_middle|assumption].
    + apply remove_first_match_None in Hr.
      assert (Hin : In y b).
      { apply (Permutation_in y (Permutation_sym Hp)). now left. }
      rewrite Forall_forall in Hr. specialize (Hr y).
      rewrite Hr in Hxy; [discriminate|]. now apply list_elem_of_In.
Qed.

Lemma SliceEqualUnordered_matching_per a b :
  SliceEqualUnordered Equal a b = true <-> matching Equal a b.
Proof.
  unfold SliceEqualUnordered. split.
  - destruct (Nat.eqb (length a) (length b)); simpl; [|discriminate].
    apply consume_sound.
  - intros Hm. rewrite (matching_length _ _ _ Hm), Nat.eqb_refl. simpl.
    now apply consume_complete_per.
Qed.

Lemma matching_sym_per a b : matching Equal a b -> matching Equal b a.
Proof.
  destruct Equal_per as (Equal_sym & _).
  intros (b' & Hp & Hf).
  assert (Hf' : Forall2 (fun x y => Equal x y = true) b' a).
  { clear Hp. induction Hf; constructor; auto. }
  destruct (Permutation_Forall2 (Permutation_sym Hp) Hf') as (a' & Ha & Hfa).
  exists a'. split; assumption.
Qed.

Lemma matching_trans_per a b c :
  matching Equal a b -> matching Equal b c -> matching Equal a c.
Proof.
  destruct Equal_per as (_ & Equal_trans).
  intros (b' & Hb & Hab) (c' & Hc & Hbc).
  destruct (Permutation_Forall2 Hb Hbc) as (c2 & Hc2 & Hbc2).
  exists c2. split; [now rewrite Hc|].
  clear Hb Hc Hc2 Hbc. revert c2 Hbc2.
  induction Hab as [|x y a b' Hxy Hab IH]; intros c2 Hbc2; inversion Hbc2; subst;
    constructor; eauto.
Qed.

(** The engine lifts a partial equivalence to slices. *)
Lemma SliceEqualUnordered_per : partial_equivalence (SliceEqualUnordered Equal).
Proof.
  split.
  - intros a b. rewrite !SliceEqualUnordered_matching_per. apply matching_sym_per.
  - intros a b c. rewrite !SliceEqualUnordered_matching_per. apply matching_trans_per.
Qed.

End Partial.
End Any.

(** X4. For an [Equal] that is symmetric and transitive, reflexive or not
    (as [Tag.Equal]), [SliceEqualUnordered] is true exactly when there is a
    bijection that pairs [Equal] elements, and it is itself symmetric and
    transitive. *)
Theorem SliceEqualUnordered_partial_equivalence {T : Type} (Equal : T -> T -> bool) :
  partial_equivalence Equal ->
  (forall a b, SliceEqualUnordered Equal a b = true <-> bijection Equal a b) /\
  (forall a b, SliceEqualUnordered Equal a b = SliceEqualUnordered Equal b a) /\
  (forall a b c, SliceEqualUnordered Equal a b = true ->
                 SliceEqualUnordered Equal b c = true ->
                 SliceEqualUnordered Equal a c = true).
Proof.
  intros Hper. split; [|split].
  - intros a b. rewrite bijection_matching.
    now apply SliceEqualUnordered_matching_per.
  - intros a b. apply bool_eq_iff.
    rewrite !(SliceEqualUnordered_matching_per Equal Hper).
    split; now apply matching_sym_per.
  - intros a b c. rewrite !(SliceEqualUnordered_matching_per Equal Hper).
    now apply matching_trans_per.
Qed.

(** When [Equal] on the elements of [a] is equality, the loop decides
    whether [b] is a rearrangement of [a]. *)
Lemma consume_exact {T : Type} (Equal : T -> T -> bool) a :
  (forall x y, In x a -> (Equal x y = true <-> x = y)) ->
  forall b, consume Equal a b = true <-> Permutation a b.
Proof.
  induction a as [|x a IH]; intros Heq b; simpl.
  - destruct b; simpl; split; try reflexivity; try discriminate.
    intros Hp. now apply Permutation_nil in Hp.
  - destruct (remove_first_match Equal x b) as [r|] eqn:Hr.
    + destruct (remove_first_match_Some _ _ _ _ Hr) as (y & Hy & Hp).
      apply Heq in Hy; [|now left]. subst y.
      rewrite IH by (intros; apply Heq; now right).
      rewrite Hp. split; [now constructor|apply Permutation_cons_inv].
    + split; [discriminate|]. intros Hp.
      apply remove_first_match_None in Hr. rewrite List.Forall_forall in Hr.
      assert (Hin : In x b) by (apply (Permutation_in x Hp); now left).
      apply Hr in Hin. assert (Equal x x = true) by (apply Heq; [now left|reflexivity]).
      congruence.
Qed.

Lemma SliceEqualUnordered_exact {T : Type} (Equal : T -> T -> bool) a b :
  (forall x y, In x a -> (Equal x y = true <-> x = y)) ->
  (SliceEqualUnordered Equal a b = true <-> Permutation a b).
Proof.
  intros Heq. unfold SliceEqualUnordered.
  destruct (Nat.eqb_spec (length a) (length b)) as [Hlen|Hlen]; simpl.
  - now apply consume_exact.
  - split; [discriminate|]. intros Hp. now apply Permutation_length in Hp.
Qed.

(** X5. [SliceEqEqUnordered] is true exactly when one slice is a
    rearrangement of the other. *)
Theorem SliceEqEqUnordered_Permutation {T : Type} `{EqDecision T} (a b : list T) :
  SliceEqEqUnordered a b = true <-> Permutation a b.
Proof.
  apply SliceEqualUnordered_exact. intros x y _. apply bool_decide_eq_true.
Qed.

End cmp_more.

(** ** Equality of maps *)

Module map_facts.
Import cmp.

Section Maps.
Context {K : Type} `{Countable K} {V : Type}.
Variable pred : V -> V -> bool.

Lemma MapEqualWith_loop_spec l : forall b : gmap K V,
  NoDup l.*1 ->
  (MapEqualWith_loop pred l b = true <->
   (forall k va, (k, va) ∈ l -> exists vb, b !! k = Some vb /\ pred va vb = true) /\
   (forall k, is_Some (b !! k) -> k ∈ l.*1)).
Proof.
  induction l as [|[k va] l IH]; intros b Hnd; simpl.
  - rewrite Nat.eqb_eq, map_size_empty_iff, map_empty. split.
    + intros Hb. split; [intros k va Hin; inversion Hin|].
      intros k [v Hv]. rewrite Hb in Hv. discriminate.
    + intros [_ Hb] k. destruct (b !! k) eqn:Hk; [|reflexivity].
      assert (Hin : k ∈ @nil K) by (apply Hb; eauto). inversion Hin.
  - apply NoDup_cons in Hnd as [Hk Hnd].
    destruct (b !! k) as [vb|] eqn:Hbk.
    + destruct (pred va vb) eqn:Hp; simpl.
      * rewrite (IH _ Hnd). split.
        -- intros [H1 H2]. split.
           ++ intros k' va' Hin. apply elem_of_cons in Hin as [[= -> ->]|Hin]; [eauto|].
              destruct (H1 _ _ Hin) as (vb' & Hvb' & Hp').
              exists vb'. split; [|assumption].
              destruct (decide (k = k')) as [->|Hne];
                [now rewrite lookup_delete_eq in Hvb'|now rewrite lookup_delete_ne in Hvb'].
           ++ intros k' Hs. destruct (decide (k = k')) as [->|Hne]; [now left|].
              right. apply H2. now rewrite lookup_delete_ne.
        -- intros [H1 H2]. split.
           ++ intros k' va' Hin.
              assert (Hne : k <> k').
              { intros ->. apply Hk. apply list_elem_of_fmap. now exists (k', va'). }
              rewrite lookup_delete_ne by assumption. apply H1. now right.
           ++ intros k' Hs. destruct (decide (k = k')) as [->|Hne].
              { rewrite lookup_delete_eq in Hs. now destruct Hs. }
              rewrite lookup_delete_ne in Hs by assumption.
              apply H2, elem_of_cons in Hs as [->|Hs]; [contradiction|assumption].
      * split; [discriminate|]. intros [H1 _].
        destruct (H1 k va) as (vb' & Hvb' & Hp'); [now left|]. congruence.
    + split; [discriminate|]. intros [H1 _].
      destruct (H1 k va) as (vb' & Hvb' & _); [now left|]. congruence.
Qed.

Lemma same_keys_related_size (a b : gmap K V) :
  same_keys_related pred a b -> size a = size b.
Proof.
  intros Hr. rewrite <- !size_dom. f_equal. apply set_eq. intros k.
  rewrite !elem_of_dom. specialize (Hr k).
  destruct (a !! k), (b !! k); split; intros [? ?]; try discriminate; eauto; contradiction.
Qed.

(** X6. Whatever the order in which the runtime ranges over [a],
    [MapEqualWith] is true exactly when the two maps have the same keys and
    [pred] holds between the two values of every key. *)
Theorem MapEqualWith_same_keys_related (a b : gmap K V) :
  (forall l, Permutation l (map_to_list a) ->
     (MapEqualWith_in pred l a b = true <-> same_keys_related pred a b)) /\
  (MapEqualWith pred a b = true <-> same_keys_related pred a b).
Proof.
  assert (Hall : forall l, Permutation l (map_to_list a) ->
     (MapEqualWith_in pred l a b = true <-> same_keys_related pred a b)).
  { intros l Hl.
    assert (Hnd : NoDup l.*1).
    { rewrite Hl. apply NoDup_fst_map_to_list. }
    assert (Hin : forall k va, (k, va) ∈ l <-> a !! k = Some va).
    { intros k va. rewrite Hl. apply elem_of_map_to_list. }
    unfold MapEqualWith_in. split.
    - destruct (Nat.eqb (size a) (size b)); simpl; [|discriminate].
      rewrite (MapEqualWith_loop_spec l b Hnd). intros [H1 H2] k.
      destruct (a !! k) as [va|] eqn:Hak.
      + destruct (H1 k va) as (vb & -> & Hp); [now apply Hin|assumption].
      + destruct (b !! k) as [vb|] eqn:Hbk; [|exact I].
        assert (Hk : k ∈ l.*1) by (apply H2; eauto).
        apply list_elem_of_fmap in Hk as ([k' va] & -> & Hk). apply Hin in Hk.
        simpl in Hak. congruence.
    - intros Hr. rewrite (same_keys_related_size a b Hr), Nat.eqb_refl. simpl.
      apply (MapEqualWith_loop_spec l b Hnd). split.
      + intros k va Hk. apply Hin in Hk. specialize (Hr k). rewrite Hk in Hr.
        destruct (b !! k) as [vb|]; [eauto|contradiction].
      + intros k [vb Hk]. specialize (Hr k). rewrite Hk in Hr.
        destruct (a !! k) as [va|] eqn:Hak; [|contradiction].
        apply list_elem_of_fmap. exists (k, va). split; [reflexivity|now apply Hin]. }
  split; [exact Hall|]. now apply Hall.
Qed.

End Maps.
End map_facts.

(** ** More on tags *)

Module tags_more.
Import gostrings json tags gostrings_facts tags_facts cmp cmp_facts cmp_more.

Lemma reserved_timestamp key : reserved key = false -> key <> "knit#timestamp".
Proof. intros Hr ->. discriminate. Qed.

Section WithTime.
Context `{rfctime}.

(** [Tag.Equal] by its three cases. *)
Lemma Tag_Equal_cases a b :
  Tag_Equal a b =
    if String.eqb (Key a) (Key b) then
      if String.eqb (Key a) "knit#timestamp" then
        match ParseRFC3339DateTime (Value a), ParseRFC3339DateTime (Value b) with
        | Some vA, Some vB => Equiv vA vB
        | _, _ => false
        end
      else String.eqb (Value a) (Value b)
    else false.
Proof.
  unfold Tag_Equal. rewrite KeyKnitTimestamp_eq.
  destruct (String.eqb (Key a) (Key b)); [|reflexivity].
  now destruct (String.eqb (Key a) "knit#timestamp").
Qed.

Lemma Tag_Equal_sym :
  (forall x y, Equiv x y = true -> Equiv y x = true) ->
  forall a b, Tag_Equal a b = true -> Tag_Equal b a = true.
Proof.
  intros Hsym a b. rewrite !Tag_Equal_cases.
  destruct (String.eqb_spec (Key a) (Key b)) as [Hk|Hk]; [|discriminate].
  rewrite <- Hk, String.eqb_refl.
  destruct (String.eqb (Key a) "knit#timestamp").
  - destruct (ParseRFC3339DateTime (Value a)), (ParseRFC3339DateTime (Value b));
      try discriminate. apply Hsym.
  - rewrite !String.eqb_eq. congruence.
Qed.

Lemma Tag_Equal_trans :
  (forall x y z, Equiv x y = true -> Equiv y z = true -> Equiv x z = true) ->
  forall a b c, Tag_Equal a b = true -> Tag_Equal b c = true -> Tag_Equal a c = true.
Proof.
  intros Htrans a b c. rewrite !Tag_Equal_cases.
  destruct (String.eqb_spec (Key a) (Key b)) as [Hab|Hab]; [|discriminate].
  destruct (String.eqb_spec (Key b) (Key c)) as [Hbc|Hbc];
    [|intros _; discriminate].
  rewrite <- Hbc, <- Hab, String.eqb_refl.
  destruct (String.eqb (Key a) "knit#timestamp").
  - destruct (ParseRFC3339DateTime (Value a)), (ParseRFC3339DateTime (Value b)),
      (ParseRFC3339DateTime (Value c)); try discriminate. apply Htrans.
  - rewrite !String.eqb_eq. congruence.
Qed.

Lemma Tag_Equal_per : partial_equivalence Equiv -> partial_equivalence Tag_Equal.
Proof.
  intros [Hsym Htrans]. split; [now apply Tag_Equal_sym|now apply Tag_Equal_trans].
Qed.

(** X7. When [Equiv] is symmetric and transitive, so is [Tag.Equal]. *)
Theorem Tag_Equal_symmetric_transitive :
  partial_equivalence Equiv ->
  (forall a b, Tag_Equal a b = Tag_Equal b a) /\
  (forall a b c, Tag_Equal a b = true -> Tag_Equal b c = true -> Tag_Equal a c = true).
Proof.
  intros [Hsym Htrans]. split; [|now apply Tag_Equal_trans].
  intros a b. apply bool_eq_iff. split; now apply Tag_Equal_sym.
Qed.

(** X8. When [Equiv] is reflexive, a tag is equal to itself exactly when it
    is not a ["knit#timestamp"] tag with a value that does not parse. *)
Theorem Tag_Equal_self (t : Tag) :
  (forall v, Equiv v v = true) ->
  (Tag_Equal t t = true <->
   Key t <> "knit#timestamp" \/ ParseRFC3339DateTime (Value t) <> None).
Proof.
  intros Hrefl. rewrite Tag_Equal_cases, String.eqb_refl.
  destruct (String.eqb_spec (Key t) "knit#timestamp") as [Hk|Hk].
  - destruct (ParseRFC3339DateTime (Value t)) as [v|].
    + rewrite Hrefl. split; [intros _; right; discriminate|reflexivity].
    + split; [discriminate|]. intros [Hn|Hn]; contradiction.
  - rewrite String.eqb_refl. split; [now left|reflexivity].
Qed.

(** On a key without the reserved prefix, [Tag.Equal] is equality. *)
Lemma Tag_Equal_user_key a b :
  reserved (Key a) = false -> (Tag_Equal a b = true <-> a = b).
Proof.
  intros Hr. apply reserved_timestamp in Hr. rewrite Tag_Equal_cases.
  destruct (String.eqb_spec (Key a) (Key b)) as [Hk|Hk].
  - destruct (String.eqb_spec (Key a) "knit#timestamp") as [Ht|_]; [contradiction|].
    rewrite String.eqb_eq. destruct a, b; simpl in *. split; [congruence|].
    now intros [= _ ->].
  - split; [discriminate|]. intros ->. contradiction.
Qed.

(** X9. A user tag, whose key does not carry the reserved prefix, is
    [Equal] to a tag exactly when the two are the same key and value: the
    timestamp equivalence never applies to user tags. *)
Theorem UserTag_Equal_eq (u o : UserTag) :
  reserved (Key u) = false -> (UserTag_Equal u o = true <-> u = o).
Proof. apply Tag_Equal_user_key. Qed.

(** [UserTag.Parse] is [Tag.Parse] followed by the test of the prefix. *)
Lemma UserTag_Parse_unfold ut s :
  UserTag_Parse ut s =
    match Tag_Parse Tag_zero s with
    | (_, Some e) => (ut, Some e)
    | (t, None) => if reserved (Key t) then (ut, Some ErrTagReserved) else (t, None)
    end.
Proof.
  unfold UserTag_Parse, reserved. now destruct (Tag_Parse Tag_zero s) as [t [e|]].
Qed.

(** X10. A tag that [UserTag.Parse] accepts has no reserved key, is in
    canonical form, and is read back by [UserTag.Parse] from its own
    string. *)
Theorem UserTag_Parse_accepts (ut : UserTag) (s : string) (u : UserTag) :
  UserTag_Parse ut s = (u, None) ->
  reserved (Key u) = false /\
  canonical u /\
  forall ut', UserTag_Parse ut' (Tag_String u) = (u, None).
Proof.
  rewrite UserTag_Parse_unfold.
  destruct (Tag_Parse Tag_zero s) as [t [e|]] eqn:HP; [discriminate|].
  destruct (reserved (Key t)) eqn:Hr; [discriminate|]. intros [= <-].
  pose proof (Tag_Parse_canonical _ _ _ HP) as Hc.
  split; [assumption|]. split; [assumption|].
  intros ut'. rewrite UserTag_Parse_unfold.
  rewrite (Tag_Parse_String_canonical Tag_zero t Hc). now rewrite Hr.
Qed.

(** X11. [UserTag.Parse] fails exactly when [Tag.Parse] fails or the
    trimmed text before the first [":"] starts with ["knit#"] (whatever the
    value, a valid timestamp included); a failure leaves the receiver as it
    was. *)
Theorem UserTag_Parse_rejects (ut : UserTag) (s : string) :
  (snd (UserTag_Parse ut s) <> None <->
     snd (Tag_Parse Tag_zero s) <> None \/
     exists k v, first_colon_split s k v /\ reserved (TrimSpace k) = true) /\
  (snd (UserTag_Parse ut s) <> None -> fst (UserTag_Parse ut s) = ut).
Proof.
  rewrite UserTag_Parse_unfold.
  destruct (Tag_Parse Tag_zero s) as [t [e|]] eqn:HP; simpl.
  - split; [|reflexivity]. split; [intros _; left; discriminate|discriminate].
  - destruct (Tag_Parse_success _ _ _ HP) as (k & v & Hcut & -> & _). simpl.
    destruct (reserved (TrimSpace k)) eqn:Hr; simpl.
    + split; [|reflexivity]. split; [|discriminate]. intros _. right.
      exists k, v. split; [now apply first_colon_split_Cut|assumption].
    + split; [|congruence]. split; [congruence|].
      intros [Hn|(k' & v' & Hs & Hr')]; [congruence|].
      apply first_colon_split_Cut in Hs. rewrite Hcut in Hs.
      injection Hs as <- <-. congruence.
Qed.

(** X12. [UserTag.Parse] accepts a string exactly when [Tag.Parse] accepts
    it and [AsUserTag] accepts the parsed tag, with the same result. *)
Theorem UserTag_Parse_AsUserTag (ut : UserTag) (s : string) (u : UserTag) :
  UserTag_Parse ut s = (u, None) <->
  exists t, Tag_Parse Tag_zero s = (t, None) /\ Tag_AsUserTag t ut = (u, true).
Proof.
  rewrite UserTag_Parse_unfold. unfold Tag_AsUserTag, reserved.
  destruct (Tag_Parse Tag_zero s) as [t [e|]].
  - split; [discriminate|]. intros (t' & [=] & _).
  - destruct (HasPrefix (Key t) SystemTagPrefix) eqn:Hp.
    + split; [discriminate|]. intros (t' & [= <-] & Ha). rewrite Hp in Ha. discriminate.
    + split.
      * intros [= <-]. exists t. now rewrite Hp.
      * intros (t' & [= <-] & Ha). rewrite Hp in Ha. now injection Ha as <-.
Qed.

(** X13. The object form is taken as it is: [Tag.unarshal] succeeds exactly
    when the map has a string under ["key"] and a string under ["value"],
    and then stores the two strings untouched, neither trimmed nor checked
    against the rules of the system keys. *)
Theorem Tag_unarshal_object (t : Tag) (dat : gmap string value) (t' : Tag) :
  Tag_unarshal t (Some dat) = (t', None) <->
  exists k v, dat !! "key" = Some (JString k) /\
              dat !! "value" = Some (JString v) /\
              t' = {| Key := k; Value := v |}.
Proof.
  unfold Tag_unarshal.
  destruct (dat !! "key") as [[| | |k| |]|]; try (split; [discriminate|];
    intros (k' & v' & [=] & _)).
  destruct (dat !! "value") as [[| | |v| |]|]; try (split; [discriminate|];
    intros (k' & v' & _ & [=] & _)).
  simpl. split.
  - intros [= <-]. now exists k, v.
  - intros (k' & v' & [= <-] & [= <-] & ->). reflexivity.
Qed.

Lemma Tag_UnmarshalJSON_object t k v :
  Tag_UnmarshalJSON t (JObject [("key", JString k); ("value", JString v)])
  = ({| Key := k; Value := v |}, None).
Proof. reflexivity. Qed.

(** X14. The string form and the object form of a tag decode to the same
    result exactly when the tag is canonical. *)
Theorem Tag_UnmarshalJSON_forms_agree (t x : Tag) :
  Tag_UnmarshalJSON t (JString (Tag_String x))
  = Tag_UnmarshalJSON t (JObject [("key", JString (Key x)); ("value", JString (Value x))])
  <-> canonical x.
Proof.
  rewrite Tag_UnmarshalJSON_object. destruct x as [k v]. simpl.
  change (Tag_UnmarshalJSON t (JString (Tag_String {| Key := k; Value := v |})))
    with (Tag_Parse t (Tag_String {| Key := k; Value := v |})).
  split; [apply Tag_Parse_canonical|apply Tag_Parse_String_canonical].
Qed.

End WithTime.
End tags_more.

(** ** More on user tags and change sets *)

Module change_more.
Import gostrings json tags json_facts tags_facts change_facts cmp cmp_facts cmp_more tags_more.

Lemma first_failure_Permutation {A : Type} (f : value -> A * option error) l1 l2 :
  Permutation l1 l2 -> first_failure f l1 = None -> first_failure f l2 = None.
Proof.
  intros Hp. rewrite !first_failure_None. now rewrite Hp.
Qed.

Lemma existsb_false_Permutation {A : Type} (p : A -> bool) l1 l2 :
  Permutation l1 l2 -> existsb p l1 = false -> existsb p l2 = false.
Proof.
  intros Hp H1. destruct (existsb p l2) eqn:H2; [|reflexivity].
  apply existsb_exists in H2 as (x & Hx & Hpx).
  apply (Permutation_in x (Permutation_sym Hp)) in Hx.
  assert (existsb p l1 = true) by (apply existsb_exists; eauto). congruence.
Qed.

Section WithTime.
Context `{rfctime}.

(** X15. [UserTag.UnmarshalJSON] assigns all or nothing, for the string
    form and for the object form alike: a failure leaves the receiver as it
    was, and a tag it stores has no reserved key. *)
Theorem UserTag_UnmarshalJSON_all_or_nothing (ut : UserTag) (data : value) :
  (snd (UserTag_UnmarshalJSON ut data) <> None ->
   fst (UserTag_UnmarshalJSON ut data) = ut) /\
  (snd (UserTag_UnmarshalJSON ut data) = None ->
   reserved (Key (fst (UserTag_UnmarshalJSON ut data))) = false).
Proof.
  rewrite UserTag_UnmarshalJSON_spec.
  destruct (snd (Tag_UnmarshalJSON Tag_zero data)); simpl; [split; [reflexivity|discriminate]|].
  destruct (reserved (Key (element_tag data))) eqn:Hr; simpl;
    split; try reflexivity; try discriminate; congruence.
Qed.

Lemma Change_Equal_Permutation c o :
  user_keys_only c ->
  (Change_Equal c o = true <->
   Permutation (AddTags c) (AddTags o) /\
   Permutation (RemoveTags c) (RemoveTags o) /\
   Permutation (RemoveKey c) (RemoveKey o)).
Proof.
  intros [Ha Hr]. unfold Change_Equal. rewrite !andb_true_iff.
  rewrite (SliceEqualUnordered_exact UserTag_Equal (AddTags c)).
  2:{ intros x y Hx. apply Tag_Equal_user_key.
      rewrite List.Forall_forall in Ha. now apply Ha. }
  rewrite (SliceEqualUnordered_exact UserTag_Equal (RemoveTags c)).
  2:{ intros x y Hx. apply Tag_Equal_user_key.
      rewrite List.Forall_forall in Hr. now apply Hr. }
  unfold SliceEqEqUnordered.
  rewrite (SliceEqualUnordered_exact _ (RemoveKey c))
    by (intros x y _; apply bool_decide_eq_true).
  tauto.
Qed.

(** X16. For a change set without reserved keys in its tag lists (as every
    decoded one is), [Change.Equal] is true exactly when the three lists of
    the other change set are rearrangements of its own. *)
Theorem Change_Equal_rearrangement (c o : Change) :
  user_keys_only c ->
  (Change_Equal c o = true <->
   Permutation (AddTags c) (AddTags o) /\
   Permutation (RemoveTags c) (RemoveTags o) /\
   Permutation (RemoveKey c) (RemoveKey o)).
Proof. apply Change_Equal_Permutation. Qed.

(** X17. The order of the elements inside ["add"], ["remove"] and
    ["remove_key"] does not matter: when a body is decoded, every body with
    the same elements in another order is decoded too, into a change set that
    is [Equal]. *)
Theorem Change_UnmarshalJSON_order (c c1 : Change) add remove keys add' remove' keys' :
  Permutation add add' -> Permutation remove remove' -> Permutation keys keys' ->
  Change_UnmarshalJSON c (change_body add remove (map JString keys)) = (c1, None) ->
  exists c2,
    Change_UnmarshalJSON c (change_body add' remove' (map JString keys')) = (c2, None) /\
    Change_Equal c1 c2 = true.
Proof.
  intros Ha Hr Hk Hd.
  pose proof (Change_UnmarshalJSON_user_keys _ _ _ Hd) as [Hu _].
  rewrite Change_UnmarshalJSON_body in Hd. rewrite Change_UnmarshalJSON_body.
  destruct (first_failure _ (add ++ remove)) eqn:Hf; [discriminate|].
  destruct (existsb reserved keys) eqn:He; [discriminate|].
  injection Hd as <-.
  rewrite (first_failure_Permutation _ (add ++ remove) (add' ++ remove'))
    by (assumption || now apply Permutation_app).
  rewrite (existsb_false_Permutation _ keys keys') by assumption.
  eexists. split; [reflexivity|].
  apply Change_Equal_Permutation; simpl.
  - simpl in Hu. apply Forall_app in Hu. exact Hu.
  - repeat split; [now apply Permutation_map|now apply Permutation_map|assumption].
Qed.

End WithTime.
End change_more.

(** ** More on plans *)

Module plans_more.
Import gostrings json plans json_facts gostrings_facts plans_facts cmp cmp_facts cmp_more.

(** [Annotation.parse] on a string with a ["="], and on one without. *)
Lemma Annotation_parse_found an s k v :
  Cut s "=" = (k, v, true) ->
  Annotation_parse an s = ({| Key := TrimSpace k; Value := TrimSpace v |}, None).
Proof. intros Hc. unfold Annotation_parse. now rewrite Hc. Qed.

Lemma Annotation_String_has_eq x : In "="%char (chars (Annotation_String x)).
Proof.
  unfold Annotation_String. rewrite chars_app. apply in_or_app. right. now left.
Qed.

(** X18. [Annotation.parse] reads an annotation back from its string
    exactly when the key has no ["="] and neither key nor value has white
    space around it; every annotation that [Annotation.parse] produces is of
    that kind. *)
Theorem Annotation_parse_String_roundtrip :
  (forall an x : Annotation,
     Annotation_parse an (Annotation_String x) = (x, None) <->
     ~ In "="%char (chars (Key x)) /\ TrimSpace (Key x) = Key x /\
     TrimSpace (Value x) = Value x) /\
  (forall (an : Annotation) (s : string) (x : Annotation),
     Annotation_parse an s = (x, None) ->
     forall an', Annotation_parse an' (Annotation_String x) = (x, None)).
Proof.
  assert (Hback : forall an x,
    ~ In "="%char (chars (Key x)) -> TrimSpace (Key x) = Key x ->
    TrimSpace (Value x) = Value x ->
    Annotation_parse an (Annotation_String x) = (x, None)).
  { intros an [k v] Hk Htk Htv. simpl in *.
    rewrite (Annotation_parse_found an _ k v); [now rewrite Htk, Htv|].
    now apply (Cut_app k "=" v). }
  assert (Hprod : forall an s x, Annotation_parse an s = (x, None) ->
    ~ In "="%char (chars (Key x)) /\ TrimSpace (Key x) = Key x /\
    TrimSpace (Value x) = Value x).
  { intros an s x. unfold Annotation_parse.
    destruct (Cut s "=") as [[k v] [|]] eqn:Hc; simpl; [|discriminate].
    intros [= <-]. simpl. apply Cut_found in Hc as [_ Hk].
    rewrite !TrimSpace_idempotent. repeat split.
    intros Hin. now apply TrimSpace_chars in Hin. }
  split.
  - intros an x. split; [apply Hprod|]. intros (Hk & Htk & Htv). now apply Hback.
  - intros an s x HP an'. destruct (Hprod _ _ _ HP) as (Hk & Htk & Htv). now apply Hback.
Qed.

(** X19. Decoding a JSON array into [Annotations] succeeds exactly when
    every element is a string with a ["="]; the result has one annotation for
    each element, in the order of the array, duplicates included. *)
Theorem Annotations_Unmarshal_array (old : Annotations) (l : list value) (r : Annotations) :
  Annotations_Unmarshal old (JArray l) = Ok r <->
  exists ss, l = map JString ss /\
             Forall (fun s => malformed s = false) ss /\
             r = map annotation_of ss.
Proof.
  unfold Annotations_Unmarshal, Unmarshal. cbn [unmarshal_slice].
  rewrite unmarshal_elements_unmarshaler.
  destruct (first_failure (Annotation_UnmarshalJSON Annotation_zero) l) as [e|] eqn:Hf.
  - split; [discriminate|]. intros (ss & -> & Hss & _).
    rewrite first_failure_Annotation in Hf.
    destruct (List.find malformed ss) as [s|] eqn:Hfind; [|discriminate].
    apply List.find_some in Hfind as [Hin Hm].
    rewrite List.Forall_forall in Hss. apply Hss in Hin. congruence.
  - apply first_failure_None in Hf.
    assert (Hss : exists ss, l = map JString ss /\ Forall (fun s => malformed s = false) ss).
    { clear -Hf. induction Hf as [|v l Hv Hl (ss & -> & Hss)].
      - exists []. split; [reflexivity|constructor].
      - unfold Annotation_UnmarshalJSON in Hv.
        destruct v; simpl in Hv; try discriminate.
        + exists (s :: ss). split; [reflexivity|]. constructor; [|assumption].
          unfold malformed. unfold Annotation_parse in Hv.
          now destruct (Cut s "=") as [[k w] [|]]. }
    destruct Hss as (ss & -> & Hss). rewrite map_Annotation_UnmarshalJSON. split.
    + intros [= <-]. now exists ss.
    + intros (ss' & Heq & _ & ->). f_equal. f_equal.
      clear -Heq. revert ss' Heq. induction ss as [|s ss IH]; intros [|s' ss'] Heq;
        try discriminate; [reflexivity|]. injection Heq as -> Heq. f_equal. now apply IH.
Qed.

(** X20. [OnSpecLabel.Parse] does not trim: it reads a label back from its
    string exactly when the key has no ["="], white space included, and it
    fails exactly on the strings without ["="], leaving the receiver as it
    was. *)
Theorem OnSpecLabel_Parse_String_roundtrip :
  (forall l x : OnSpecLabel,
     OnSpecLabel_Parse l (OnSpecLabel_String x) = (x, None) <->
     ~ In "="%char (chars (OnSpecLabel_Key x))) /\
  (forall (l : OnSpecLabel) (s : string),
     ~ In "="%char (chars s) <-> OnSpecLabel_Parse l s = (l, Some (ErrLabelFormat s))).
Proof.
  split.
  - intros l [k v]. unfold OnSpecLabel_Parse, OnSpecLabel_String. simpl. split.
    + destruct (Cut (k ++ "=" ++ v) "=") as [[k' v'] [|]] eqn:Hc; simpl; [|discriminate].
      intros [= -> ->]. now apply Cut_found in Hc as [_ Hk].
    + intros Hk. change (k ++ "=" ++ v)%string with (k ++ String "=" v)%string.
      now rewrite (Cut_app k "=" v Hk).
  - intros l s. unfold OnSpecLabel_Parse.
    rewrite <- (Cut_found_iff s "=").
    destruct (Cut s "=") as [[k v] [|]]; simpl; split; try congruence; try discriminate.
Qed.

Lemma OnSpecLabel_Equal_eq l o : OnSpecLabel_Equal l o = true <-> l = o.
Proof.
  unfold OnSpecLabel_Equal. rewrite andb_true_iff, !String.eqb_eq.
  destruct l, o; simpl. split; [intros [-> ->]; reflexivity|now intros [= -> ->]].
Qed.

(** X21. [OnNode.Equal] is true exactly when the [May], [Prefer] and [Must]
    labels of one are rearrangements of those of the other. *)
Theorem OnNode_Equal_rearrangement (o oo : OnNode) :
  OnNode_Equal o oo = true <->
  Permutation (May o) (May oo) /\ Permutation (Prefer o) (Prefer oo) /\
  Permutation (Must o) (Must oo).
Proof.
  unfold OnNode_Equal. rewrite !andb_true_iff.
  rewrite !(SliceEqualUnordered_exact OnSpecLabel_Equal)
    by (intros x y _; apply OnSpecLabel_Equal_eq).
  tauto.
Qed.

Section WithTime.
Context `{rfctime}.

(** X22. [Upstream.Equal] never reads through a nil pointer: it always
    returns, and its answer is that the plans are [Equal] and that the
    mountpoints, and the logs, are both nil or both set and [Equal]. *)
Theorem Upstream_Equal_no_panic (d o : Upstream) :
  Upstream_Equal d o =
    Some (Summary_Equal (Upstream_Plan d) (Upstream_Plan o)
          && nil_or_Equal Mountpoint_Equal (Upstream_Mountpoint d) (Upstream_Mountpoint o)
          && nil_or_Equal LogPoint_Equal (Upstream_Log d) (Upstream_Log o)).
Proof.
  unfold Upstream_Equal.
  destruct (Upstream_Mountpoint d) as [m|], (Upstream_Mountpoint o) as [om|],
    (Upstream_Log d) as [l|], (Upstream_Log o) as [ol|]; simpl;
    rewrite ?andb_false_r; reflexivity.
Qed.

End WithTime.
End plans_more.

(** ** [Equal] across the types: symmetry and transitivity *)

Module equal_facts.
Import cmp cmp_facts cmp_more.

Section Combinators.
Context {A B : Type}.

Lemma per_ext (E E' : A -> A -> bool) :
  (forall x y, E x y = E' x y) -> partial_equivalence E' -> partial_equivalence E.
Proof.
  intros Hext [Hs Ht]. split.
  - intros x y. rewrite !Hext. apply Hs.
  - intros x y z. rewrite !Hext. apply Ht.
Qed.

Lemma per_andb (E1 E2 : A -> A -> bool) :
  partial_equivalence E1 -> partial_equivalence E2 ->
  partial_equivalence (fun x y => E1 x y && E2 x y).
Proof.
  intros [Hs1 Ht1] [Hs2 Ht2]. split.
  - intros x y. rewrite !andb_true_iff. intros [H1 H2]. auto.
  - intros x y z. rewrite !andb_true_iff. intros [H1 H2] [H3 H4]. split; eauto.
Qed.

Lemma per_on (f : A -> B) (E : B -> B -> bool) :
  partial_equivalence E -> partial_equivalence (fun x y => E (f x) (f y)).
Proof. intros [Hs Ht]. split; [intros x y; apply Hs|intros x y z; apply Ht]. Qed.

Lemma per_nil_or (E : A -> A -> bool) :
  partial_equivalence E -> partial_equivalence (plans.nil_or_Equal E).
Proof.
  intros [Hs Ht]. split.
  - intros [x|] [y|]; simpl; auto.
  - intros [x|] [y|] [z|]; simpl; try discriminate; eauto.
Qed.

Lemma per_decide `{EqDecision A} :
  partial_equivalence (fun x y : A => bool_decide (x = y)).
Proof.
  split.
  - intros x y. rewrite !bool_decide_eq_true. congruence.
  - intros x y z. rewrite !bool_decide_eq_true. congruence.
Qed.

End Combinators.

Lemma per_String_eqb : partial_equivalence String.eqb.
Proof.
  split.
  - intros x y. rewrite !String.eqb_eq. congruence.
  - intros x y z. rewrite !String.eqb_eq. congruence.
Qed.

Lemma per_Z_eqb : partial_equivalence Z.eqb.
Proof.
  split.
  - intros x y. rewrite !Z.eqb_eq. congruence.
  - intros x y z. rewrite !Z.eqb_eq. congruence.
Qed.

Lemma SliceEqEq_eq {T : Type} `{EqDecision T} (a b : list T) :
  SliceEqEq a b = true <-> a = b.
Proof.
  unfold SliceEqEq. rewrite SliceEqual_Forall2. split.
  - induction 1 as [|x y a b Hxy Hf IH]; [reflexivity|].
    apply bool_decide_eq_true in Hxy. congruence.
  - intros <-. induction a; constructor; [now apply bool_decide_eq_true|assumption].
Qed.

Lemma per_SliceEqEq {T : Type} `{EqDecision T} : partial_equivalence (@SliceEqEq T _).
Proof.
  split.
  - intros x y. rewrite !SliceEqEq_eq. congruence.
  - intros x y z. rewrite !SliceEqEq_eq. congruence.
Qed.

Ltac per_fields :=
  repeat
    match goal with
    | |- partial_equivalence (fun x y => andb (@?a x y) (@?b x y)) =>
        apply (per_andb a b)
    | |- partial_equivalence (fun x y => String.eqb _ _) =>
        apply (per_on _ String.eqb per_String_eqb)
    | |- partial_equivalence (fun x y => Z.eqb _ _) =>
        apply (per_on _ Z.eqb per_Z_eqb)
    | |- partial_equivalence (fun x y => SliceEqEq _ _) =>
        apply (per_on _ _ per_SliceEqEq)
    end.

Lemma per_Annotations_Equal : partial_equivalence plans.Annotations_Equal.
Proof.
  apply SliceEqualUnordered_per.
  destruct annotations_facts.Annotation_Equal_equivalence as (_ & Hs & Ht). now split.
Qed.

Lemma per_Image_Equal : partial_equivalence plans.Image_Equal.
Proof.
  apply (per_ext _ (plans.nil_or_Equal
           (fun i o => String.eqb (plans.Repository i) (plans.Repository o)
                       && String.eqb (plans.Tag i) (plans.Tag o)))).
  - now intros [i|] [o|].
  - apply per_nil_or. per_fields.
Qed.

Lemma per_plans_Summary_Equal : partial_equivalence plans.Summary_Equal.
Proof.
  unfold plans.Summary_Equal. per_fields.
  - apply (per_on _ _ per_Image_Equal).
  - apply (per_on _ _ per_Annotations_Equal).
Qed.

Lemma per_Exit_Equal : partial_equivalence runs.Exit_Equal.
Proof. unfold runs.Exit_Equal. per_fields. Qed.

Section WithTime.
Context `{rfctime}.
Hypothesis Equiv_per : partial_equivalence Equiv.
Hypothesis RFC3339_Equal_per : partial_equivalence RFC3339_Equal.

Lemma per_Tags : partial_equivalence (SliceEqualUnordered tags.Tag_Equal).
Proof. apply SliceEqualUnordered_per. now apply tags_more.Tag_Equal_per. Qed.

Lemma per_Mountpoint_Equal : partial_equivalence plans.Mountpoint_Equal.
Proof. unfold plans.Mountpoint_Equal. per_fields. apply (per_on _ _ per_Tags). Qed.

Lemma per_LogPoint_Equal : partial_equivalence plans.LogPoint_Equal.
Proof. unfold plans.LogPoint_Equal. apply (per_on _ _ per_Tags). Qed.

Lemma per_runs_Summary_Equal : partial_equivalence runs.Summary_Equal.
Proof.
  unfold runs.Summary_Equal. per_fields.
  - apply (per_on runs.Summary_Exit _ (per_nil_or _ per_Exit_Equal)).
  - apply (per_on _ _ per_plans_Summary_Equal).
  - apply (per_on _ _ RFC3339_Equal_per).
Qed.

Lemma per_Assignment_Equal : partial_equivalence runs.Assignment_Equal.
Proof.
  unfold runs.Assignment_Equal. per_fields. apply (per_on _ _ per_Mountpoint_Equal).
Qed.

Lemma per_LogSummary_Equal : partial_equivalence runs.LogSummary_Equal.
Proof.
  unfold runs.LogSummary_Equal. per_fields. apply (per_on _ _ per_LogPoint_Equal).
Qed.

Lemma per_runs_Detail_Equal : partial_equivalence runs.Detail_Equal.
Proof.
  unfold runs.Detail_Equal. per_fields.
  - apply (per_on (fun d => runs.Plan (runs.Detail_Summary d)) _ per_plans_Summary_Equal).
  - apply (per_on (fun d => runs.UpdatedAt (runs.Detail_Summary d)) _ RFC3339_Equal_per).
  - apply (per_on _ _ (SliceEqualUnordered_per _ per_Assignment_Equal)).
  - apply (per_on _ _ (SliceEqualUnordered_per _ per_Assignment_Equal)).
  - apply (per_on runs.Log _ (per_nil_or _ per_LogSummary_Equal)).
Qed.

Lemma per_CreatedFrom_Equal : partial_equivalence data.CreatedFrom_Equal.
Proof.
  unfold data.CreatedFrom_Equal. per_fields.
  - apply (per_on _ _ per_runs_Summary_Equal).
  - apply (per_on data.CreatedFrom_Mountpoint _ (per_nil_or _ per_Mountpoint_Equal)).
  - apply (per_on data.CreatedFrom_Log _ (per_nil_or _ per_LogPoint_Equal)).
Qed.

Lemma per_AssignedTo_Equal : partial_equivalence data.AssignedTo_Equal.
Proof.
  unfold data.AssignedTo_Equal. per_fields.
  - apply (per_on _ _ per_runs_Summary_Equal).
  - apply (per_on _ _ per_Mountpoint_Equal).
Qed.

Lemma per_NominatedBy_Equal : partial_equivalence data.NominatedBy_Equal.
Proof.
  unfold data.NominatedBy_Equal. per_fields.
  - apply (per_on _ _ per_plans_Summary_Equal).
  - apply (per_on _ _ per_Mountpoint_Equal).
Qed.

Lemma per_data_Detail_Equal : partial_equivalence data.Detail_Equal.
Proof.
  unfold data.Detail_Equal. per_fields.
  - apply (per_on _ _ per_CreatedFrom_Equal).
  - apply (per_on _ _ per_Tags).
  - apply (per_on _ _ (SliceEqualUnordered_per _ per_AssignedTo_Equal)).
  - apply (per_on _ _ (SliceEqualUnordered_per _ per_NominatedBy_Equal)).
Qed.

End WithTime.
End equal_facts.

(** ** [Equal] of runs, data and plan summaries *)

Module equal_more.
Import cmp cmp_facts cmp_more equal_facts.

Lemma Image_Equal_eq i o : plans.Image_Equal i o = true <-> i = o.
Proof.
  destruct i as [[r t]|], o as [[r' t']|]; simpl;
    rewrite ?andb_true_iff, ?String.eqb_eq; split; try discriminate; try reflexivity.
  - now intros [-> ->].
  - now intros [= -> ->].
Qed.

(** X23. Two plan summaries are [Equal] exactly when they have the same
    id, image, entrypoint, arguments and name, and the annotations of one are
    a rearrangement of those of the other. *)
Theorem plans_Summary_Equal_spec (s o : plans.Summary) :
  plans.Summary_Equal s o = true <->
  plans.PlanId s = plans.PlanId o /\
  plans.Summary_Image s = plans.Summary_Image o /\
  plans.Entrypoint s = plans.Entrypoint o /\
  plans.Args s = plans.Args o /\
  plans.Name s = plans.Name o /\
  Permutation (plans.Summary_Annotations s) (plans.Summary_Annotations o).
Proof.
  unfold plans.Summary_Equal.
  rewrite !andb_true_iff, !String.eqb_eq, Image_Equal_eq, !SliceEqEq_eq,
    annotations_facts.Annotations_Equal_Permutation.
  tauto.
Qed.

Section WithTime.
Context `{rfctime}.

(** X24. Two run details are [Equal] and have [Equal] exits exactly when
    their summaries are [Equal] and their inputs, outputs and logs are:
    [Detail.Equal] is [Summary.Equal] without the exit, together with the
    three fields of the detail. *)
Theorem runs_Detail_Equal_Summary_Equal (d o : runs.Detail) :
  runs.Detail_Equal d o = true /\
  plans.nil_or_Equal runs.Exit_Equal
    (runs.Summary_Exit (runs.Detail_Summary d))
    (runs.Summary_Exit (runs.Detail_Summary o)) = true
  <->
  runs.Summary_Equal (runs.Detail_Summary d) (runs.Detail_Summary o) = true /\
  SliceEqualUnordered runs.Assignment_Equal (runs.Inputs d) (runs.Inputs o) = true /\
  SliceEqualUnordered runs.Assignment_Equal (runs.Outputs d) (runs.Outputs o) = true /\
  plans.nil_or_Equal runs.LogSummary_Equal (runs.Log d) (runs.Log o) = true.
Proof.
  unfold runs.Detail_Equal, runs.Summary_Equal, plans.nil_or_Equal. cbv zeta.
  rewrite !andb_true_iff. tauto.
Qed.

(** X25. When the two comparisons of [rfctime] are symmetric and
    transitive, so are [Equal] on run summaries and on run details:
    [d.Equal(o)] and [o.Equal(d)] agree. *)
Theorem runs_Equal_symmetric_transitive :
  partial_equivalence Equiv -> partial_equivalence RFC3339_Equal ->
  (forall s o, runs.Summary_Equal s o = runs.Summary_Equal o s) /\
  (forall s o p, runs.Summary_Equal s o = true -> runs.Summary_Equal o p = true ->
                 runs.Summary_Equal s p = true) /\
  (forall d o, runs.Detail_Equal d o = runs.Detail_Equal o d) /\
  (forall d o p, runs.Detail_Equal d o = true -> runs.Detail_Equal o p = true ->
                 runs.Detail_Equal d p = true).
Proof.
  intros He Hq.
  destruct (per_runs_Summary_Equal Hq) as [Hs1 Ht1].
  destruct (per_runs_Detail_Equal He Hq) as [Hs2 Ht2].
  repeat split; try assumption; intros x y; apply bool_eq_iff; split; auto.
Qed.

(** X26. When the two comparisons of [rfctime] are symmetric and
    transitive, so is [Equal] on the details of a Data and on their parts
    ([CreatedFrom], [AssignedTo], [NominatedBy]). *)
Theorem data_Equal_symmetric_transitive :
  partial_equivalence Equiv -> partial_equivalence RFC3339_Equal ->
  (forall d o, data.Detail_Equal d o = data.Detail_Equal o d) /\
  (forall d o p, data.Detail_Equal d o = true -> data.Detail_Equal o p = true ->
                 data.Detail_Equal d p = true) /\
  partial_equivalence data.CreatedFrom_Equal /\
  partial_equivalence data.AssignedTo_Equal /\
  partial_equivalence data.NominatedBy_Equal.
Proof.
  intros He Hq.
  destruct (per_data_Detail_Equal He Hq) as [Hs Ht].
  split; [intros x y; apply bool_eq_iff; split; auto|].
  split; [assumption|].
  split; [now apply per_CreatedFrom_Equal|].
  split; [now apply per_AssignedTo_Equal|now apply per_NominatedBy_Equal].
Qed.

End WithTime.
End equal_more.

(** ** The properties above on concrete values *)

Module more_examples.
Import gostrings json tags cmp cmp_facts cmp_more tags_more change_more equal_facts equal_more.

(** In order and out of order, on the integers of the tests. *)
Lemma SliceEqual_SliceEqualUnordered_witness :
  SliceEqual Int_Equal [1; 2; 3]%Z [1; 2; 3]%Z = true /\
  SliceEqualUnordered Int_Equal [1; 2; 3]%Z [1; 2; 3]%Z = true.
Proof.
  split; [reflexivity|].
  apply (SliceEqual_SliceEqualUnordered Int_Equal [1; 2; 3]%Z [1; 2; 3]%Z). reflexivity.
Defined.

Lemma SliceEqualUnordered_sound_witness :
  SliceEqualUnordered Int_Equal [1; 2; 3]%Z [3; 2; 1]%Z = true /\
  bijection Int_Equal [1; 2; 3]%Z [3; 2; 1]%Z.
Proof.
  split; [reflexivity|].
  apply (SliceEqualUnordered_sound Int_Equal [1; 2; 3]%Z [3; 2; 1]%Z). reflexivity.
Defined.

Lemma model_Equiv_per : partial_equivalence (Equiv (rfctime := rfctime_model.model)).
Proof. exact per_Z_eqb. Qed.

Lemma model_Equal_per : partial_equivalence (RFC3339_Equal (rfctime := rfctime_model.model)).
Proof. exact per_Z_eqb. Qed.

Lemma model_Tag_Equal_per : partial_equivalence (Tag_Equal (H := rfctime_model.model)).
Proof. apply Tag_Equal_per. exact model_Equiv_per. Qed.

(** Two slices of tags with the same instant written in two ways: equal as
    unordered slices, in both directions. *)
Lemma SliceEqualUnordered_partial_equivalence_witness :
  let a := [ {| Key := "knit#timestamp"; Value := "2024-01-01T00:00:00Z" |};
             {| Key := "type"; Value := "csv" |} ] in
  let b := [ {| Key := "type"; Value := "csv" |};
             {| Key := "knit#timestamp"; Value := "2024-01-01T09:00:00+09:00" |} ] in
  partial_equivalence (Tag_Equal (H := rfctime_model.model)) /\
  SliceEqualUnordered (Tag_Equal (H := rfctime_model.model)) a b = true /\
  SliceEqualUnordered (Tag_Equal (H := rfctime_model.model)) b a = true.
Proof.
  intros a b. split; [exact model_Tag_Equal_per|]. split; [vm_compute; reflexivity|].
  rewrite <- (proj1 (proj2 (SliceEqualUnordered_partial_equivalence
                              (Tag_Equal (H := rfctime_model.model))
                              model_Tag_Equal_per)) a b).
  vm_compute. reflexivity.
Defined.

Lemma Tag_Equal_symmetric_transitive_witness :
  let a := {| Key := "knit#timestamp"; Value := "2024-01-01T00:00:00Z" |} in
  let b := {| Key := "knit#timestamp"; Value := "2024-01-01T09:00:00+09:00" |} in
  partial_equivalence (Equiv (rfctime := rfctime_model.model)) /\
  Tag_Equal (H := rfctime_model.model) a b = Tag_Equal (H := rfctime_model.model) b a.
Proof.
  intros a b. split; [exact model_Equiv_per|].
  apply (proj1 (Tag_Equal_symmetric_transitive (H := rfctime_model.model) model_Equiv_per)).
Defined.

Lemma Tag_Equal_self_witness :
  let t := {| Key := "knit#timestamp"; Value := "2024-01-01T00:00:00Z" |} in
  (forall v, Equiv (rfctime := rfctime_model.model) v v = true) /\
  Tag_Equal (H := rfctime_model.model) t t = true.
Proof.
  intros t. split; [exact Z.eqb_refl|].
  apply (Tag_Equal_self (H := rfctime_model.model) t Z.eqb_refl).
  right. vm_compute. discriminate.
Defined.

Lemma UserTag_Equal_eq_witness :
  let u := {| Key := "team"; Value := "alpha" |} in
  reserved (Key u) = false /\
  UserTag_Equal (H := rfctime_model.model) u u = true.
Proof.
  intros u. split; [reflexivity|].
  apply (UserTag_Equal_eq (H := rfctime_model.model) u u); reflexivity.
Defined.

(** [UserTag.Parse("team:alpha")] succeeds and reads its own string back. *)
Lemma UserTag_Parse_accepts_witness :
  let u := {| Key := "team"; Value := "alpha" |} in
  UserTag_Parse (H := rfctime_model.model) Tag_zero " team : alpha " = (u, None) /\
  UserTag_Parse (H := rfctime_model.model) Tag_zero (Tag_String u) = (u, None).
Proof.
  intros u. split; [vm_compute; reflexivity|].
  apply (UserTag_Parse_accepts (H := rfctime_model.model) Tag_zero " team : alpha " u).
  vm_compute. reflexivity.
Defined.

Lemma Change_Equal_rearrangement_witness :
  let c := {| AddTags := [ {| Key := "a"; Value := "1" |}; {| Key := "b"; Value := "2" |} ];
              RemoveTags := []; RemoveKey := ["x"; "y"] |} in
  let o := {| AddTags := [ {| Key := "b"; Value := "2" |}; {| Key := "a"; Value := "1" |} ];
              RemoveTags := []; RemoveKey := ["y"; "x"] |} in
  user_keys_only c /\ Change_Equal (H := rfctime_model.model) c o = true.
Proof.
  intros c o.
  assert (Hc : user_keys_only c) by (split; repeat constructor).
  split; [exact Hc|].
  apply (Change_Equal_rearrangement (H := rfctime_model.model) c o Hc).
  split; [apply perm_swap|]. split; [apply perm_nil|apply perm_swap].
Defined.

Lemma Change_UnmarshalJSON_order_witness :
  exists c1 c2,
    Change_UnmarshalJSON (H := rfctime_model.model) Change_zero
      (change_body [JString "a:1"; JString "b:2"] [] (map JString ["x"; "y"]))
    = (c1, None) /\
    Change_UnmarshalJSON (H := rfctime_model.model) Change_zero
      (change_body [JString "b:2"; JString "a:1"] [] (map JString ["y"; "x"]))
    = (c2, None) /\
    Change_Equal (H := rfctime_model.model) c1 c2 = true.
Proof.
  eexists.
  destruct (Change_UnmarshalJSON_order (H := rfctime_model.model) Change_zero _
              [JString "a:1"; JString "b:2"] [] ["x"; "y"]
              [JString "b:2"; JString "a:1"] [] ["y"; "x"]
              (perm_swap _ _ _) (perm_nil _) (perm_swap _ _ _) eq_refl)
    as (c2 & Hd & He).
  exists c2. split; [reflexivity|]. split; assumption.
Defined.

Lemma runs_Equal_symmetric_transitive_witness :
  let plan := {| plans.PlanId := "p1"; plans.Summary_Image := None;
                 plans.Entrypoint := []; plans.Args := []; plans.Name := EmptyString;
                 plans.Summary_Annotations := [] |} in
  let s : @runs.Summary rfctime_model.model :=
    {| runs.RunId := "r1"; runs.Status := "done";
       runs.UpdatedAt := (0%Z : @RFC3339 rfctime_model.model);
       runs.Summary_Exit := None; runs.Plan := plan |} in
  let o : @runs.Summary rfctime_model.model :=
    {| runs.RunId := "r2"; runs.Status := "done";
       runs.UpdatedAt := (0%Z : @RFC3339 rfctime_model.model);
       runs.Summary_Exit := None; runs.Plan := plan |} in
  partial_equivalence (Equiv (rfctime := rfctime_model.model)) /\
  partial_equivalence (RFC3339_Equal (rfctime := rfctime_model.model)) /\
  runs.Summary_Equal s o = runs.Summary_Equal o s.
Proof.
  intros plan s o. split; [exact model_Equiv_per|]. split; [exact model_Equal_per|].
  apply (proj1 (runs_Equal_symmetric_transitive (H := rfctime_model.model)
                  model_Equiv_per model_Equal_per)).
Defined.

Lemma data_Equal_symmetric_transitive_witness :
  let run : @runs.Summary rfctime_model.model :=
    {| runs.RunId := "r1"; runs.Status := "done";
       runs.UpdatedAt := (0%Z : @RFC3339 rfctime_model.model);
       runs.Summary_Exit := None;
       runs.Plan := {| plans.PlanId := "p1"; plans.Summary_Image := None;
                       plans.Entrypoint := []; plans.Args := [];
                       plans.Name := EmptyString; plans.Summary_Annotations := [] |} |} in
  let detail ts : @data.Detail rfctime_model.model :=
    {| data.KnitId := "k1";
       data.Tags := [ {| Key := "knit#timestamp"; Value := ts |} ];
       data.Upstream := {| data.CreatedFrom_Mountpoint := None;
                           data.CreatedFrom_Log := None;
                           data.CreatedFrom_Run := run |};
       data.Downstreams := []; data.Nomination := [] |} in
  let d := detail "2024-01-01T00:00:00Z" in
  let o := detail "2024-01-01T09:00:00+09:00" in
  partial_equivalence (Equiv (rfctime := rfctime_model.model)) /\
  partial_equivalence (RFC3339_Equal (rfctime := rfctime_model.model)) /\
  data.Detail_Equal d o = data.Detail_Equal o d.
Proof.
  intros run detail d o. split; [exact model_Equiv_per|]. split; [exact model_Equal_per|].
  apply (proj1 (data_Equal_symmetric_transitive (H := rfctime_model.model)
                  model_Equiv_per model_Equal_per)).
Defined.

End more_examples.
